(** * web3/utils/filters.py: filter parameters, data matcher, filter engines

    A shallow embedding of [web3/utils/filters.py] and the properties of it
    that the specification states.

    - [Py]      the Python values the parameter builder inspects
    - [Re]      the fragment of Python's [re] that the data matcher uses
    - [Params]  [construct_event_filter_params]
    - [Engine]  the [Filter] class hierarchy as a state record, its methods
                in a state-and-exception monad that logs the calls made to
                collaborators (remote source, callbacks, sleep, thread).
    - [Claims]  the statements of the specification and sample inputs
    - [ParamsFacts], [EngineFacts], [MatcherFacts]  the proofs.

    Scheduling is cooperative: another task runs only while the current one
    is inside a collaborator call, so the steps of the background task are
    cut at those calls. Fetches and callbacks return normally, and
    callbacks do not touch the filter they are registered on.
*)

From Stdlib Require Import ZArith Ascii String List Bool Lia.
From stdpp Require Import base option list gmap strings.

Local Open Scope string_scope.
Local Open Scope list_scope.

(* ===================================================================== *)
(** ** Python values *)
(* ===================================================================== *)

Module Py.

(** The shapes of value that reach [construct_event_filter_params] through
    [topics], [address], [contract_address], [fromBlock] and [toBlock]:
    [None], integers, text, bytes, and lists and tuples of these. *)
#[warnings="-register-all"] Inductive value : Type :=
| VNone
| VInt (z : Z)
| VStr (s : string)
| VBytes (b : string)
| VList (l : list value)
| VTuple (l : list value).

(** Python truth value: [None], [0] and the empty text, bytes, list and
    tuple are false. *)
Definition truthy (v : value) : bool :=
  match v with
  | VNone => false
  | VInt z => negb (z =? 0)%Z
  | VStr s => negb (String.length s =? 0)%nat
  | VBytes b => negb (String.length b =? 0)%nat
  | VList l => negb (length l =? 0)%nat
  | VTuple l => negb (length l =? 0)%nat
  end.

(** [eth_utils.is_string]: an instance of a string type (text or bytes). *)
Definition is_string (v : value) : bool :=
  match v with VStr _ | VBytes _ => true | _ => false end.

(** [eth_utils.is_list_like]: a sequence that is not a string; a tuple is
    one as much as a list. *)
Definition is_list_like (v : value) : bool :=
  match v with VList _ | VTuple _ => true | _ => false end.

Definition is_None (v : value) : bool :=
  match v with VNone => true | _ => false end.

(** ["{0}".format(type(v))] *)
Definition type_repr (v : value) : string :=
  match v with
  | VNone => "<class 'NoneType'>"
  | VInt _ => "<class 'int'>"
  | VStr _ => "<class 'str'>"
  | VBytes _ => "<class 'bytes'>"
  | VList _ => "<class 'list'>"
  | VTuple _ => "<class 'tuple'>"
  end.

(** Exceptions raised by the module. *)
Inductive exn : Type :=
| ValueError (msg : string)
| TypeError (msg : string)
| AttributeError (attr : string)
| ReError (pattern : string).

(** Outcome of a call that may raise. *)
Inductive result (A : Type) : Type :=
| Ok (a : A)
| Raise (e : exn).
Arguments Ok {A} a.
Arguments Raise {A} e.

(** The message of [(..., ) + [...]]:
    [can only concatenate tuple (not "list") to tuple]. *)
Definition tuple_plus_list_message : string :=
  "can only concatenate tuple (not " +:+ String (ascii_of_nat 34) "list"
  +:+ String (ascii_of_nat 34) ") to tuple".

(** [v + [x1, ..., xn]]: a list is extended; a tuple cannot take a list,
    and nothing else can. *)
Definition plus_list (v : value) (l : list value) : result value :=
  match v with
  | VList l0 => Ok (VList (l0 ++ l))
  | VTuple _ => Raise (TypeError tuple_plus_list_message)
  | _ => Raise (TypeError "unsupported operand type(s) for +")
  end.

End Py.
Import Py.

(** A data filter tuple: each slot is [None] (wildcard) or a hex string. *)
Definition data_filter := list (option string).
Definition data_filter_set_t := list data_filter.

(* ===================================================================== *)
(** ** construct_event_filter_params *)
(* ===================================================================== *)

Module Params.
Section Builder.

(** The event encoder ([.events]) is a collaborator: its two functions are
    taken as they are. *)
Context {event_abi argument_filters : Type}.
Variable construct_event_topic_set :
  event_abi -> option argument_filters -> list value.
Variable construct_event_data_set :
  event_abi -> option argument_filters -> data_filter_set_t.

(** Lines 29-32. *)
Definition topic_set (abi : event_abi) (af : option argument_filters)
           (topics : value) : list value :=
  if is_None topics
  then construct_event_topic_set abi af
  else [topics] ++ construct_event_topic_set abi af.

(** Lines 34-37: the value stored under ['topics']. *)
Definition topics_entry (ts : list value) : value :=
  match ts with
  | [t0] => if is_list_like t0 then t0 else VList ts
  | _ => VList ts
  end.

(** Lines 39-51: the update of [filter_params] for ['address']. *)
Definition address_entry (address contract_address : value)
           (filter_params : gmap string value)
  : result (gmap string value) :=
  if truthy address && truthy contract_address then
    if is_list_like address then
      match plus_list address [contract_address] with
      | Ok merged => Ok (<["address" := merged]> filter_params)
      | Raise e => Raise e
      end
    else if is_string address then
      Ok (<["address" := VList [address; contract_address]]> filter_params)
    else
      Raise (ValueError
               ("Unsupported type for `address` parameter: " +:+ type_repr address))
  else if truthy address then
    Ok (<["address" := address]> filter_params)
  else if truthy contract_address then
    Ok (<["address" := contract_address]> filter_params)
  else Ok filter_params.

(** Lines 53-57. *)
Definition block_entry (key : string) (v : value)
           (filter_params : gmap string value) : gmap string value :=
  if is_None v then filter_params else <[key := v]> filter_params.

Definition construct_event_filter_params
           (abi : event_abi)
           (contract_address : value)
           (af : option argument_filters)
           (topics fromBlock toBlock address : value)
  : result (data_filter_set_t * gmap string value) :=
  let filter_params : gmap string value := ∅ in
  let ts := topic_set abi af topics in
  let filter_params := <["topics" := topics_entry ts]> filter_params in
  match address_entry address contract_address filter_params with
  | Raise e => Raise e
  | Ok filter_params =>
      let filter_params := block_entry "fromBlock" fromBlock filter_params in
      let filter_params := block_entry "toBlock" toBlock filter_params in
      let data_filters_set := construct_event_data_set abi af in
      Ok (data_filters_set, filter_params)
  end.

End Builder.
End Params.

(* ===================================================================== *)
(** ** The fragment of Python's [re] used by the data matcher *)
(* ===================================================================== *)

Module Re.

(** A character set is a union of inclusive ranges of characters; a
    literal character [c] is the set [[(c, c)]]. *)
Definition charset := list (ascii * ascii).

(** One item of a branch: [cs{n}] (a bare atom is [cs{1}]), or one of the
    assertions [^] and [$]. *)
Inductive piece : Type :=
| Chars (cs : charset) (n : nat)
| Bol
| Eol.

Definition branch := list piece.

(** A pattern without groups: alternatives separated by [|], which binds
    weaker than concatenation and than the assertions. *)
Definition regex := list branch.

(** *** Parsing *)

Inductive mode : Type :=
| MTop                                   (* no atom waiting for a quantifier *)
| MAtom (cs : charset)                   (* an atom was just read *)
| MClass (items : charset) (pend : option ascii) (dash : bool)
                                         (* inside [[...]] *)
| MQuant (cs : charset) (digits : option nat).
                                         (* inside [{...}] *)

Definition digit_of (c : ascii) : option nat :=
  let n := nat_of_ascii c in
  if (48 <=? n)%nat && (n <=? 57)%nat then Some (n - 48)%nat else None.

(** Characters whose meaning outside a class is not modelled: any pattern
    that uses one of them is rejected by [compile]. *)
Definition unsupported (c : ascii) : bool :=
  match c with
  | "."%char | "*"%char | "+"%char | "?"%char | "("%char | ")"%char
  | "\"%char | "]"%char | "}"%char => true
  | _ => false
  end.

Definition commit (m : mode) (cur : list piece) : list piece :=
  match m with
  | MAtom cs => Chars cs 1 :: cur
  | _ => cur
  end.

(** [parse s done cur m]: [done] holds the finished branches and [cur] the
    pieces of the branch being read, both in reverse order. *)
Fixpoint parse (s : list ascii) (done : list branch) (cur : list piece)
         (m : mode) : option regex :=
  match s with
  | [] =>
      match m with
      | MTop | MAtom _ => Some (rev (rev (commit m cur) :: done))
      | _ => None
      end
  | c :: s' =>
      match m with
      | MClass items pend dash =>
          match c with
          | "]"%char =>
              match pend, dash with
              | Some p, false => parse s' done cur (MAtom (items ++ [(p, p)]))
              | None, false =>
                  match items with
                  | [] => None
                  | _ => parse s' done cur (MAtom items)
                  end
              | _, true => None
              end
          | "-"%char =>
              match pend, dash with
              | Some _, false => parse s' done cur (MClass items pend true)
              | _, _ => None
              end
          | "^"%char | "\"%char | "["%char => None
          | _ =>
              match pend, dash with
              | Some lo, true =>
                  if (nat_of_ascii lo <=? nat_of_ascii c)%nat
                  then parse s' done cur (MClass (items ++ [(lo, c)]) None false)
                  else None
              | Some p, false =>
                  parse s' done cur (MClass (items ++ [(p, p)]) (Some c) false)
              | None, _ => parse s' done cur (MClass items (Some c) false)
              end
          end
      | MQuant cs digits =>
          match c with
          | "}"%char =>
              match digits with
              | Some n => parse s' done (Chars cs n :: cur) MTop
              | None => None
              end
          | _ =>
              match digit_of c with
              | Some k =>
                  parse s' done cur
                        (MQuant cs (Some (10 * default 0%nat digits + k)%nat))
              | None => None
              end
          end
      | _ =>
          match c with
          | "{"%char =>
              match m with
              | MAtom cs => parse s' done cur (MQuant cs None)
              | _ => None
              end
          | "|"%char => parse s' (rev (commit m cur) :: done) [] MTop
          | "^"%char => parse s' done (Bol :: commit m cur) MTop
          | "$"%char => parse s' done (Eol :: commit m cur) MTop
          | "["%char => parse s' done (commit m cur) (MClass [] None false)
          | _ =>
              if unsupported c then None
              else parse s' done (commit m cur) (MAtom [(c, c)])
          end
      end
  end.

(** [re.compile(pattern)]; [None] when the pattern is malformed or uses
    syntax outside the fragment. *)
Definition compile (pattern : string) : option regex :=
  parse (list_ascii_of_string pattern) [] [] MTop.

(** *** Matching *)

Definition in_charset (c : ascii) (cs : charset) : bool :=
  existsb (fun r => (nat_of_ascii (fst r) <=? nat_of_ascii c)%nat
                    && (nat_of_ascii c <=? nat_of_ascii (snd r))%nat) cs.

(** Consume exactly [n] characters of [cs]. *)
Fixpoint consume (cs : charset) (n : nat) (s : list ascii)
  : option (list ascii) :=
  match n with
  | O => Some s
  | S n' =>
      match s with
      | c :: s' => if in_charset c cs then consume cs n' s' else None
      | [] => None
      end
  end.

(** [$] without MULTILINE: at the end of the text, or just before a
    newline that ends the text. *)
Definition at_eol (s : list ascii) : bool :=
  match s with
  | [] => true
  | [c] => (nat_of_ascii c =? 10)%nat
  | _ => false
  end.

(** A branch matches at offset [pos] when its pieces match one after the
    other; what follows the last piece is not looked at. *)
Fixpoint match_branch (b : branch) (pos : nat) (s : list ascii) : bool :=
  match b with
  | [] => true
  | Bol :: b' => (pos =? 0)%nat && match_branch b' pos s
  | Eol :: b' => at_eol s && match_branch b' pos s
  | Chars cs n :: b' =>
      match consume cs n s with
      | Some s' => match_branch b' (pos + n) s'
      | None => false
      end
  end.

(** [bool(pattern.match(text))]: some alternative matches from offset 0. *)
Definition matches (r : regex) (text : string) : bool :=
  existsb (fun b => match_branch b 0 (list_ascii_of_string text)) r.

End Re.

(* ===================================================================== *)
(** ** construct_data_filter_regex *)
(* ===================================================================== *)

Definition ZERO_32BYTES : string := "[a-f0-9]{64}".

(** [v[2:]] *)
Definition drop2 (v : string) : string :=
  match v with
  | String _ (String _ rest) => rest
  | _ => ""
  end.

Definition slot_pattern (v : option string) : string :=
  match v with
  | None => ZERO_32BYTES
  | Some v => drop2 v
  end.

Definition tuple_pattern (data_filter : data_filter) : string :=
  "0x" +:+ String.concat "" (map slot_pattern data_filter).

(** The text handed to [re.compile]. *)
Definition data_filter_pattern (data_filter_set : data_filter_set_t) : string :=
  "^" +:+ String.concat "|" (map tuple_pattern data_filter_set) +:+ "$".

Definition construct_data_filter_regex (data_filter_set : data_filter_set_t)
  : result Re.regex :=
  match Re.compile (data_filter_pattern data_filter_set) with
  | Some r => Ok r
  | None => Raise (ReError (data_filter_pattern data_filter_set))
  end.

(* ===================================================================== *)
(** ** The filter classes *)
(* ===================================================================== *)

Module Engine.

(** The classes of the module; [Filter] is the base of all of them and
    [LogFilter] the base of [PastLogFilter]. *)
Inductive klass : Type :=
| Filter
| BlockFilter
| TransactionFilter
| LogFilter
| PastLogFilter
| ShhFilter.

Definition is_LogFilter (k : klass) : bool :=
  match k with LogFilter | PastLogFilter => true | _ => false end.

(** An entry as the remote source returns it: the ['data'] field and the
    remaining fields. *)
Record Entry : Type := mkEntry {
  data : string;
  fields : list (string * string)
}.

(** Callbacks are closures of the caller; they are told apart by a name
    and their calls are logged. *)
Definition callback := nat.

Inductive namespace : Type := eth | shh.

(** Calls that leave the object: to the remote source, to the callbacks,
    to [warnings], to [sleep] and to the thread base class. The two hooks
    are logged as well, so that their evaluations can be counted. *)
Inductive event : Type :=
| Warn (method_name : string)
| GetFilterChanges (ns : namespace) (filter_id : nat)
| GetFilterLogs (ns : namespace) (filter_id : nat)
| UninstallFilter (ns : namespace) (filter_id : nat)
| IsValid (entry : Entry)
| Format (entry : Entry)
| Call (cb : callback) (arg : Entry)
| SleepRandom
| Sleep (interval : nat)
| Start
| Join (timeout : nat).

(** The attributes of a filter object. [running] is [None], [True] or
    [False]; the last three attributes belong to [LogFilter]. *)
Record object : Type := mkObject {
  cls : klass;
  filter_id : nat;
  callbacks : list callback;
  running : option bool;
  stopped : bool;
  poll_interval : option nat;
  data_filter_set : option data_filter_set_t;
  data_filter_set_regex : option Re.regex;
  log_entry_formatter : option (Entry -> Entry)
}.

(** The object, the replies the remote source will give to the coming
    fetches, and the log of events so far. *)
Record state : Type := mkState {
  self : object;
  remote : list (list Entry);
  trace : list event
}.

(** *** State and exception monad *)

Definition M (A : Type) : Type := state -> result A * state.

Definition ret {A} (a : A) : M A := fun s => (Ok a, s).

Definition bind {A B} (k : A -> M B) (m : M A) : M B :=
  fun s =>
    match m s with
    | (Ok a, s') => k a s'
    | (Raise e, s') => (Raise e, s')
    end.

Definition raise {A} (e : exn) : M A := fun s => (Raise e, s).

(** [x ← m; k] and [m ;; k] are stdpp's notations for [bind]. *)
#[export] Instance M_ret : MRet M := @ret.
#[export] Instance M_bind : MBind M := @bind.

Definition get_self : M object := fun s => (Ok (self s), s).

Definition update (f : object -> object) : M unit :=
  fun s => (Ok tt, mkState (f (self s)) (remote s) (trace s)).

Definition emit (ev : event) : M unit :=
  fun s => (Ok tt, mkState (self s) (remote s) (trace s ++ [ev])).

(** The next reply of the remote source (an empty batch once the script
    is used up). *)
Definition next_reply : M (list Entry) :=
  fun s => (Ok (hd [] (remote s)), mkState (self s) (tl (remote s)) (trace s)).

Definition set_running (b : bool) (o : object) : object :=
  mkObject (cls o) (filter_id o) (callbacks o) (Some b) (stopped o)
           (poll_interval o) (data_filter_set o) (data_filter_set_regex o)
           (log_entry_formatter o).

Definition set_stopped (b : bool) (o : object) : object :=
  mkObject (cls o) (filter_id o) (callbacks o) (running o) b
           (poll_interval o) (data_filter_set o) (data_filter_set_regex o)
           (log_entry_formatter o).

Definition extend_callbacks (cbs : list callback) (o : object) : object :=
  mkObject (cls o) (filter_id o) (callbacks o ++ cbs) (running o) (stopped o)
           (poll_interval o) (data_filter_set o) (data_filter_set_regex o)
           (log_entry_formatter o).

Definition set_data_filter_set (d : data_filter_set_t) (o : object) : object :=
  mkObject (cls o) (filter_id o) (callbacks o) (running o) (stopped o)
           (poll_interval o) (Some d) (data_filter_set_regex o)
           (log_entry_formatter o).

Definition set_data_filter_set_regex (r : Re.regex) (o : object) : object :=
  mkObject (cls o) (filter_id o) (callbacks o) (running o) (stopped o)
           (poll_interval o) (data_filter_set o) (Some r)
           (log_entry_formatter o).

(** Truth value of the [running] attribute. *)
Definition is_running (o : object) : bool := default false (running o).

(** *** Collaborators *)

(** [self.web3.eth.getFilterChanges(self.filter_id)] and its siblings. *)
Definition getFilterChanges (ns : namespace) : M (list Entry) :=
  o ← get_self; emit (GetFilterChanges ns (filter_id o));; next_reply.

Definition getFilterLogs (ns : namespace) : M (list Entry) :=
  o ← get_self; emit (GetFilterLogs ns (filter_id o));; next_reply.

Definition uninstallFilter (ns : namespace) : M unit :=
  o ← get_self; emit (UninstallFilter ns (filter_id o)).

(** Modelled from the spec: [GreenletThread.start] of [.compat], which
    starts the background poll task, the task being the one that executes
    [_run]. The request is logged; the task's steps are the actions
    [run_enter], [loop_pass], [past_replay] and [past_finish] below. *)
Definition start : M unit := emit Start.

(** Modelled from the spec: [GreenletThread.join] of [.compat], which
    waits up to [timeout] for the background task and cancels nothing. *)
Definition join (timeout : nat) : M unit := emit (Join timeout).

(** Modelled from the spec: [sleep] of [.compat], which suspends the
    caller. *)
Definition sleep (interval : nat) : M unit := emit (Sleep interval).

(** [sleep(random.random())] *)
Definition sleep_random : M unit := emit SleepRandom.

Definition call (cb : callback) (arg : Entry) : M unit := emit (Call cb arg).

(** *** Hooks *)

(** Lines 97-104. *)
Definition _warn_async_deprecated (method_name : string) : M unit :=
  emit (Warn method_name).

(** Lines 106-111 and 225-228. *)
Definition Filter_format_entry (o : object) (entry : Entry) : Entry := entry.

Definition LogFilter_format_entry (o : object) (entry : Entry) : Entry :=
  match log_entry_formatter o with
  | Some f => f entry
  | None => entry
  end.

(** Lines 113-117 and 237-240. *)
Definition Filter_is_valid_entry (o : object) (entry : Entry) : bool := true.

Definition LogFilter_is_valid_entry (o : object) (entry : Entry) : bool :=
  match data_filter_set_regex o with
  | None => true
  | Some r => Re.matches r (data entry)
  end.

(** The value each hook returns, by the class of the object. *)
Definition format_entry_value (o : object) (entry : Entry) : Entry :=
  if is_LogFilter (cls o) then LogFilter_format_entry o entry
  else Filter_format_entry o entry.

Definition is_valid_entry_value (o : object) (entry : Entry) : bool :=
  if is_LogFilter (cls o) then LogFilter_is_valid_entry o entry
  else Filter_is_valid_entry o entry.

(** A call of [self.format_entry(entry)]. *)
Definition format_entry (entry : Entry) : M Entry :=
  o ← get_self; emit (Format entry) ;; ret (format_entry_value o entry).

(** A call of [self.is_valid_entry(entry)]. *)
Definition is_valid_entry (entry : Entry) : M bool :=
  o ← get_self; emit (IsValid entry) ;; ret (is_valid_entry_value o entry).

(** *** Filter *)

(** The attributes after [Filter.__init__(web3, filter_id)]. *)
Definition new_object (k : klass) (fid : nat) : object :=
  mkObject k fid [] None false None None None None.

(** Lines 81-83, 245-247 and 262-264: the restart guard and
    [self.running = True]. *)
Definition restart_message (k : klass) : string :=
  match k with
  | ShhFilter => "Cannot restart a filter"
  | _ => "Cannot restart a Filter"
  end.

Definition run_enter : M unit :=
  o ← get_self;
  if stopped o then raise (ValueError (restart_message (cls o)))
  else update (set_running true).

(** Lines 89-91: [for callback_fn in self.callbacks]. *)
Fixpoint for_callbacks (entry : Entry) (cbs : list callback) : M unit :=
  match cbs with
  | [] => mret tt
  | callback_fn :: cbs' =>
      ok ← is_valid_entry entry;
      (if ok : bool
       then arg ← format_entry entry; call callback_fn arg
       else mret tt);;
      for_callbacks entry cbs'
  end.

(** Lines 88-91: [for entry in changes]. *)
Fixpoint for_entries (entries : list Entry) : M unit :=
  match entries with
  | [] => mret tt
  | entry :: entries' =>
      o ← get_self;
      for_callbacks entry (callbacks o);;
      for_entries entries'
  end.

(** Lines 87-91: [if changes: ...]. *)
Definition dispatch (changes : list Entry) : M unit :=
  match changes with
  | [] => mret tt
  | _ => for_entries changes
  end.

(** Lines 92-95. *)
Definition poll_sleep : M unit :=
  o ← get_self;
  match poll_interval o with
  | None => sleep_random
  | Some interval => sleep interval
  end.

(** The remote namespace a class polls. *)
Definition poll_namespace (k : klass) : namespace :=
  match k with ShhFilter => shh | _ => eth end.

(** Lines 85-95 (and 266-276): one evaluation of the [while] test and,
    when it holds, one pass of the body. Returns whether the body ran. *)
Definition loop_pass : M bool :=
  o ← get_self;
  if is_running o then
    changes ← getFilterChanges (poll_namespace (cls o));
    dispatch changes;;
    poll_sleep;;
    mret true
  else mret false.

(** At most [fuel] passes of the loop; returns whether the loop was left.
    Nothing in a pass clears [running]: the loop ends when another task
    does so between two passes. *)
Fixpoint loop (fuel : nat) : M bool :=
  match fuel with
  | O => mret false
  | S fuel' => ran ← loop_pass; if ran : bool then loop fuel' else mret true
  end.

(** [Filter._run] and [ShhFilter._run], cut after [fuel] passes. *)
Definition Filter_run (fuel : nat) : M bool := run_enter;; loop fuel.

(** Lines 249-255. *)
Definition past_replay : M unit :=
  previous_logs ← getFilterLogs eth;
  dispatch previous_logs.

(** Line 257. *)
Definition past_finish : M unit := update (set_running false).

(** [PastLogFilter._run]. *)
Definition PastLogFilter_run : M unit :=
  run_enter;; past_replay;; past_finish.

(** *** Synchronous reads *)

(** Lines 194-199, defined by [LogFilter]. *)
Definition LogFilter_ensure_not_running (method_name : string) : M unit :=
  o ← get_self;
  if is_running o then
    raise (ValueError ("Cannot call `" +:+ method_name +:+
                       "` on a filter object which is actively watching"))
  else mret tt.

(** [self._ensure_not_running(...)]: the attribute exists on [LogFilter]
    and its subclass only. *)
Definition _ensure_not_running (method_name : string) : M unit :=
  o ← get_self;
  if is_LogFilter (cls o) then LogFilter_ensure_not_running method_name
  else raise (AttributeError "_ensure_not_running").

(** [filter(self.is_valid_entry, entries)]: the hook runs when the
    result is iterated. *)
Inductive iterator : Type :=
| filter_iter (entries : list Entry).

(** Lines 119-120. *)
Definition _filter_valid_entries (entries : list Entry) : M iterator :=
  mret (filter_iter entries).

(** [[self.format_entry(log_entry) for log_entry in log_entries]] over a
    filter iterator. *)
Fixpoint comprehension (entries : list Entry) : M (list Entry) :=
  match entries with
  | [] => mret []
  | log_entry :: entries' =>
      ok ← is_valid_entry log_entry;
      if ok : bool then
        x ← format_entry log_entry;
        xs ← comprehension entries';
        mret (x :: xs)
      else comprehension entries'
  end.

(** Lines 201-208, defined by [LogFilter]. *)
Definition LogFilter_format_log_entries (log_entries : iterator)
  : M (list Entry) :=
  match log_entries with
  | filter_iter entries => comprehension entries
  end.

Definition _format_log_entries (log_entries : iterator) : M (list Entry) :=
  o ← get_self;
  if is_LogFilter (cls o) then LogFilter_format_log_entries log_entries
  else raise (AttributeError "_format_log_entries").

(** Lines 122-126. *)
Definition get_new_entries : M (list Entry) :=
  _ensure_not_running "get_new_entries";;
  changes ← getFilterChanges eth;
  log_entries ← _filter_valid_entries changes;
  _format_log_entries log_entries.

(** Lines 128-132. *)
Definition get_all_entries : M (list Entry) :=
  _ensure_not_running "get_all_entries";;
  logs ← getFilterLogs eth;
  log_entries ← _filter_valid_entries logs;
  _format_log_entries log_entries.

(** Lines 210-223: [get], defined by [LogFilter]. On the other classes
    the name is looked up in the thread base class, which this module does
    not define: no step is modelled for it there. *)
Definition LogFilter_get (only_changes : bool) : M (list Entry) :=
  emit (Warn "get");;
  _ensure_not_running "get";;
  if only_changes then get_new_entries else get_all_entries.

(** *** watch and stop_watching *)

(** Lines 134-143. *)
Definition watch (cbs : list callback) : M unit :=
  _warn_async_deprecated "watch";;
  o ← get_self;
  if stopped o then
    raise (ValueError "Cannot watch on a filter that has been stopped")
  else
    update (extend_callbacks cbs);;
    o ← get_self;
    (if negb (is_running o) then start else mret tt);;
    sleep 0.

(** Lines 145-151 and 278-284. *)
Definition stop_watching (timeout : nat) : M unit :=
  _warn_async_deprecated "stop_watching";;
  update (set_running false);;
  update (set_stopped true);;
  o ← get_self;
  uninstallFilter (poll_namespace (cls o));;
  join timeout.

(** *** The data matcher of LogFilter *)

(** [any(data_filter_set)]: some tuple is non-empty. *)
Definition any_tuple (data_filter_set : data_filter_set_t) : bool :=
  existsb (fun data_filter => negb (length data_filter =? 0)%nat) data_filter_set.

(** Lines 230-235. *)
Definition set_data_filters (data_filter_set : data_filter_set_t) : M unit :=
  update (set_data_filter_set data_filter_set);;
  if any_tuple data_filter_set then
    match construct_data_filter_regex data_filter_set with
    | Ok r => update (set_data_filter_set_regex r)
    | Raise e => raise e
    end
  else mret tt.

(** *** Lifecycle *)

(** The lifecycle state of the specification, read off the two flags. *)
Inductive FilterState : Type := Idle | Running | Stopped.

Definition state_of (o : object) : FilterState :=
  if stopped o then Stopped
  else if is_running o then Running
  else Idle.

(** What a caller, or the background task, can do next. The task's
    [_run] is cut at the calls where another task may be scheduled. *)
Inductive action : Type :=
| a_watch (cbs : list callback)
| a_stop_watching (timeout : nat)
| a_get_new_entries
| a_get_all_entries
| a_get (only_changes : bool)
| a_set_data_filters (data_filter_set : data_filter_set_t)
| a_run_enter
| a_loop_pass
| a_past_replay
| a_past_finish.

Definition void {A} (m : M A) : M unit := m;; mret tt.

(** The code an action runs on an object of class [k], if the class has
    that step. *)
Definition exec (k : klass) (a : action) : option (M unit) :=
  match a with
  | a_watch cbs => Some (watch cbs)
  | a_stop_watching timeout => Some (stop_watching timeout)
  | a_get_new_entries => Some (void get_new_entries)
  | a_get_all_entries => Some (void get_all_entries)
  | a_get only_changes =>
      if is_LogFilter k then Some (void (LogFilter_get only_changes)) else None
  | a_set_data_filters d =>
      if is_LogFilter k then Some (set_data_filters d) else None
  | a_run_enter => Some run_enter
  | a_loop_pass =>
      match k with PastLogFilter => None | _ => Some (void loop_pass) end
  | a_past_replay =>
      match k with PastLogFilter => Some past_replay | _ => None end
  | a_past_finish =>
      match k with PastLogFilter => Some past_finish | _ => None end
  end.

Inductive step : state -> state -> Prop :=
| step_exec (a : action) (m : M unit) (s : state) :
    exec (cls (self s)) a = Some m -> step s (snd (m s)).

(** Running a list of actions in order (actions the class does not have
    are skipped). *)
Fixpoint run_actions (acts : list action) (s : state) : state :=
  match acts with
  | [] => s
  | a :: acts' =>
      match exec (cls (self s)) a with
      | Some m => run_actions acts' (snd (m s))
      | None => run_actions acts' s
      end
  end.

(** A freshly constructed filter in front of a remote source. *)
Definition init (k : klass) (fid : nat) (replies : list (list Entry)) : state :=
  mkState (new_object k fid) replies [].

(** *** Construction *)

(** The attributes an instance takes from its class before [__init__] runs
    (lines 65-69 and 181-183). [callbacks] and [filter_id] are [None] there
    and are assigned by [Filter.__init__] before anything reads them. *)
Definition class_attributes (k : klass) : object :=
  mkObject k 0 [] None false None None None None.

Definition set_log_entry_formatter (f : option (Entry -> Entry)) (o : object)
  : object :=
  mkObject (cls o) (filter_id o) (callbacks o) (running o) (stopped o)
           (poll_interval o) (data_filter_set o) (data_filter_set_regex o) f.

(** Lines 72-74: [self.filter_id = filter_id] and [self.callbacks = []]. *)
Definition set_identity (fid : nat) (o : object) : object :=
  mkObject (cls o) fid [] (running o) (stopped o)
           (poll_interval o) (data_filter_set o) (data_filter_set_regex o)
           (log_entry_formatter o).

(** Lines 71-75. *)
Definition Filter_init (fid : nat) : M unit := update (set_identity fid).

(** Lines 185-192. [formatter] is the keyword [log_entry_formatter], with
    the class attribute [None] as its default; [dfs] is [Some] when the
    keyword [data_filter_set] is passed. *)
Definition LogFilter_init (fid : nat) (formatter : option (Entry -> Entry))
           (dfs : option data_filter_set_t) : M unit :=
  update (set_log_entry_formatter formatter);;
  match dfs with
  | Some d => set_data_filters d
  | None => mret tt
  end;;
  Filter_init fid.

End Engine.

(* ===================================================================== *)
(** ** Statements of the specification, and sample inputs *)
(* ===================================================================== *)

Module Claims.
Import Params.

(** "Given", read as "not [None]". *)
Definition provided (v : value) : bool := negb (is_None v).

(** The address merge of the specification, for a reading [given] of
    "is given": what the call returns and what it stores under
    ['address']. The sequence case is stated for lists, and the failure
    for values that are neither sequences nor strings; a sequence that is
    not a list (a tuple) is in neither case. *)
Definition address_merge {event_abi argument_filters : Type}
           (topic_enc : event_abi -> option argument_filters -> list value)
           (data_enc : event_abi -> option argument_filters -> data_filter_set_t)
           (given : value -> bool) : Prop :=
  forall abi contract_address af topics fromBlock toBlock address,
    let r := construct_event_filter_params topic_enc data_enc abi
               contract_address af topics fromBlock toBlock address in
    let stores (v : option value) :=
      exists d fp, r = Ok (d, fp) /\ fp !! "address" = v in
    (given address = true -> given contract_address = true ->
       (forall l, address = VList l ->
                  stores (Some (VList (l ++ [contract_address]))))
       /\ (is_string address = true ->
           stores (Some (VList [address; contract_address])))
       /\ (is_list_like address = false -> is_string address = false ->
           exists msg, r = Raise (ValueError msg)))
    /\ (given address = true -> given contract_address = false ->
        stores (Some address))
    /\ (given address = false -> given contract_address = true ->
        stores (Some contract_address))
    /\ (given address = false -> given contract_address = false ->
        stores None).

(** The addresses the merge fails on: both addresses given and [address]
    neither a list nor a string (a tuple included: it is list-like, but a
    list cannot be added to it). *)
Definition address_unsupported (address contract_address : value) : bool :=
  truthy address && truthy contract_address
  && match address with
     | VList _ | VStr _ | VBytes _ => false
     | _ => true
     end.

(** An encoder to run the builder on. *)
Definition sample_topic_set (abi : unit) (af : option unit) : list value :=
  [VStr "0xT1"; VNone].

Definition sample_data_set (abi : unit) (af : option unit) : data_filter_set_t :=
  [].

Import Engine.

(** *** Dispatch *)

(** What one pass of the inner loop body does for the pair of [entry] and
    [callback_fn]: the validity hook is evaluated, and when it holds the
    formatter is evaluated and the callback is called with its result. *)
Definition pair_events (o : object) (entry : Entry) (callback_fn : callback)
  : list event :=
  IsValid entry ::
  (if is_valid_entry_value o entry
   then [Format entry; Call callback_fn (format_entry_value o entry)]
   else []).

(** Entries in source order, and for each entry the callbacks in
    registration order. *)
Definition dispatch_events (o : object) (batch : list Entry) : list event :=
  flat_map (fun entry => flat_map (pair_events o entry) (callbacks o)) batch.

(** The callback invocations among a list of events, in order. *)
Definition calls_of (evs : list event) : list (callback * Entry) :=
  flat_map (fun ev => match ev with Call cb arg => [(cb, arg)] | _ => [] end) evs.

(** The calls the specification asks for: for each entry that passes the
    validity hook, every callback in registration order, with the
    formatted entry. *)
Definition expected_calls (o : object) (batch : list Entry)
  : list (callback * Entry) :=
  flat_map (fun entry =>
              if is_valid_entry_value o entry
              then map (fun cb => (cb, format_entry_value o entry)) (callbacks o)
              else []) batch.

Definition is_IsValid (ev : event) : bool :=
  match ev with IsValid _ => true | _ => false end.

Definition is_Format (ev : event) : bool :=
  match ev with Format _ => true | _ => false end.

(** The evaluations of the two hooks among a list of events, in order. *)
Definition hook_events (evs : list event) : list event :=
  List.filter (fun ev => is_IsValid ev || is_Format ev) evs.

Definition is_fetch (ev : event) : bool :=
  match ev with GetFilterChanges _ _ | GetFilterLogs _ _ => true | _ => false end.

Definition is_sleep (ev : event) : bool :=
  match ev with SleepRandom | Sleep _ => true | _ => false end.

(** The event of lines 92-95. *)
Definition sleep_event (o : object) : event :=
  match poll_interval o with
  | None => SleepRandom
  | Some interval => Sleep interval
  end.

(** The hook evaluations the code makes for a batch: for every pair of an
    entry and a registered callback one validity check, followed by one
    formatting when the check holds. *)
Definition pair_hook_events (o : object) (batch : list Entry) : list event :=
  flat_map (fun entry =>
              flat_map (fun _ : callback =>
                          IsValid entry ::
                          (if is_valid_entry_value o entry
                           then [Format entry] else []))
                       (callbacks o)) batch.

Definition count (p : event -> bool) (evs : list event) : nat :=
  length (List.filter p evs).

(** The hooks run once per pair of entry and callback, never once per
    entry; with no callback registered they do not run at all. *)
Definition hooks_per_pair (o : object) (batch : list Entry)
           (evs : list event) : Prop :=
  hook_events evs = pair_hook_events o batch
  /\ count is_IsValid evs = (length batch * length (callbacks o))%nat
  /\ count is_Format evs
     = (length (List.filter (is_valid_entry_value o) batch)
        * length (callbacks o))%nat
  /\ (callbacks o = [] -> hook_events evs = []).

(** *** Lifecycle *)

(** What an action leaves in the attributes of the object. *)
Definition effect (a : action) (o : object) : object :=
  match a with
  | a_watch cbs => if stopped o then o else extend_callbacks cbs o
  | a_stop_watching _ => set_stopped true (set_running false o)
  | a_run_enter => if stopped o then o else set_running true o
  | a_past_finish => set_running false o
  | a_set_data_filters d =>
      if any_tuple d then
        match construct_data_filter_regex d with
        | Ok r => set_data_filter_set_regex r (set_data_filter_set d o)
        | Raise _ => set_data_filter_set d o
        end
      else set_data_filter_set d o
  | _ => o
  end.

(** The moves the specification allows: staying, Idle to Running, Idle to
    Stopped, Running to Stopped. *)
Definition allowed (a b : FilterState) : bool :=
  match a, b with
  | Idle, _ => true
  | Running, Running | Running, Stopped => true
  | Stopped, Stopped => true
  | _, _ => false
  end.

(** Every step of every engine of a class in [K] is an allowed move. *)
Definition lifecycle_monotone (K : klass -> Prop) : Prop :=
  forall s s', K (cls (self s)) -> step s s' ->
               allowed (state_of (self s)) (state_of (self s')) = true.

(** A computation that leaves the attributes of the object as they are. *)
Definition keeps_self {A} (m : M A) : Prop :=
  forall s, self (snd (m s)) = self s.

(** The hook evaluations of a synchronous read: the iterator checks each
    entry once and the comprehension formats each entry that passed. *)
Definition read_events (o : object) (entries : list Entry) : list event :=
  flat_map (fun entry =>
              IsValid entry ::
              (if is_valid_entry_value o entry then [Format entry] else []))
           entries.

(** The entries a synchronous read returns: those that pass the validity
    hook, formatted, in source order. *)
Definition read_result (o : object) (entries : list Entry) : list Entry :=
  map (format_entry_value o) (List.filter (is_valid_entry_value o) entries).

(** The two flags agree: a stopped filter is not running. *)
Definition consistent (o : object) : Prop :=
  stopped o = true -> is_running o = false.

(** *** The data matcher *)

(** A lower-case hexadecimal digit. *)
Definition is_hex (c : ascii) : bool :=
  let n := nat_of_ascii c in
  ((97 <=? n)%nat && (n <=? 102)%nat) || ((48 <=? n)%nat && (n <=? 57)%nat).

(** [strip_literal w p]: [p] without its prefix [w], if it has it. *)
Fixpoint strip_literal (w p : list ascii) : option (list ascii) :=
  match w with
  | [] => Some p
  | c :: w' =>
      match p with
      | c' :: p' => if Ascii.eqb c c' then strip_literal w' p' else None
      | [] => None
      end
  end.

(** [strip_hex n p]: [p] without its first [n] characters, if they are
    hexadecimal digits. *)
Fixpoint strip_hex (n : nat) (p : list ascii) : option (list ascii) :=
  match n with
  | O => Some p
  | S n' =>
      match p with
      | c :: p' => if is_hex c then strip_hex n' p' else None
      | [] => None
      end
  end.

(** A slot against the front of a text: a wildcard takes any 64
    hexadecimal digits, an exact slot takes its value (the text of the
    slot after its ["0x"]). *)
Definition strip_slot (v : option string) (p : list ascii)
  : option (list ascii) :=
  match v with
  | None => strip_hex 64 p
  | Some v => strip_literal (list_ascii_of_string (drop2 v)) p
  end.

Fixpoint strip_slots (t : data_filter) (p : list ascii)
  : option (list ascii) :=
  match t with
  | [] => Some p
  | v :: t' =>
      match strip_slot v p with
      | Some p' => strip_slots t' p'
      | None => None
      end
  end.

(** The slots of a tuple one after the other against the front of a
    payload, which starts with ["0x"]; what is left of the payload. *)
Definition strip_tuple (t : data_filter) (p : list ascii)
  : option (list ascii) :=
  match strip_literal (list_ascii_of_string "0x") p with
  | Some p' => strip_slots t p'
  | None => None
  end.

(** The tuple matches the payload fully: the concatenation of its slots
    is the entire payload. *)
Definition tuple_matches (t : data_filter) (payload : string) : bool :=
  match strip_tuple t (list_ascii_of_string payload) with
  | Some [] => true
  | _ => false
  end.

(** The matcher of the specification: some tuple matches fully. *)
Definition spec_accepts (data_filter_set : data_filter_set_t)
           (payload : string) : bool :=
  existsb (fun t => tuple_matches t payload) data_filter_set.

(** The same in the words of the specification: a wildcard slot stands for
    any segment of 64 hexadecimal digits, an exact slot for its value, and
    the tuple matches when ["0x"] followed by one segment per slot, in
    order, is the entire payload. *)
Definition slot_denotes (v : option string) (seg : list ascii) : Prop :=
  match v with
  | None => length seg = 64%nat /\ forallb is_hex seg = true
  | Some v => seg = list_ascii_of_string (drop2 v)
  end.

Definition tuple_denotes (t : data_filter) (payload : string) : Prop :=
  exists segs,
    Forall2 slot_denotes t segs
    /\ list_ascii_of_string payload
       = list_ascii_of_string "0x" ++ concat segs.

(** What the compiled pattern accepts: a payload that starts with a
    match of a tuple that is not the last one, or a payload that is a
    match of the last tuple, possibly followed by one newline. *)
Fixpoint pattern_accepts (data_filter_set : data_filter_set_t)
         (p : list ascii) : bool :=
  match data_filter_set with
  | [] => false
  | [t] =>
      match strip_tuple t p with
      | Some rest => Re.at_eol rest
      | None => false
      end
  | t :: ts =>
      match strip_tuple t p with
      | Some _ => true
      | None => pattern_accepts ts p
      end
  end.

(** Characters that stand for themselves in a pattern. *)
Definition plain (c : ascii) : bool :=
  negb (Re.unsupported c)
  && negb (existsb (Ascii.eqb c) (list_ascii_of_string "{|^$[")).

(** A data filter set whose exact slots, after their ["0x"], are made of
    such characters, as the hexadecimal text the encoder produces is. *)
Definition plain_slot (v : option string) : bool :=
  match v with
  | None => true
  | Some v => forallb plain (list_ascii_of_string (drop2 v))
  end.

Definition plain_set (data_filter_set : data_filter_set_t) : bool :=
  forallb (forallb plain_slot) data_filter_set.

(** The parsed form of the pattern of a data filter set. *)
Definition hex_set : Re.charset :=
  [("a"%char, "f"%char); ("0"%char, "9"%char)].

Definition lit (c : ascii) : Re.piece := Re.Chars [(c, c)] 1.

Definition slot_pieces (v : option string) : list Re.piece :=
  match v with
  | None => [Re.Chars hex_set 64]
  | Some v => map lit (list_ascii_of_string (drop2 v))
  end.

Definition tuple_pieces (t : data_filter) : list Re.piece :=
  lit "0" :: lit "x" :: flat_map slot_pieces t.

(** The branches after the first: the last one ends with [$]. *)
Fixpoint later_branches (t : data_filter) (ts : list data_filter)
  : Re.regex :=
  match ts with
  | [] => [tuple_pieces t ++ [Re.Eol]]
  | t' :: ts' => tuple_pieces t :: later_branches t' ts'
  end.

(** The first branch starts with [^]. *)
Definition pattern_branches (data_filter_set : data_filter_set_t) : Re.regex :=
  match data_filter_set with
  | [] => [[Re.Bol; Re.Eol]]
  | t :: ts =>
      match later_branches t ts with
      | b :: bs => (Re.Bol :: b) :: bs
      | [] => []
      end
  end.

(** The next character does not open a quantifier. *)
Definition no_brace (s : list ascii) : bool :=
  match s with
  | c :: _ => negb (Ascii.eqb c "{")
  | [] => true
  end.

(** Puts pieces in front of the first branch. *)
Definition prepend (ps : list Re.piece) (r : Re.regex) : Re.regex :=
  match r with
  | b :: bs => (ps ++ b) :: bs
  | [] => []
  end.

(** Every tuple of the set is empty. *)
Definition all_empty (data_filter_set : data_filter_set_t) : bool :=
  forallb (fun t : data_filter => match t with [] => true | _ => false end)
          data_filter_set.

(** The entry with a given payload. *)
Definition entry_of (payload : string) : Entry := mkEntry payload [].

(** *** Sample inputs *)

Definition word (b : string) : string := String.concat "" (repeat b 32).

Definition e1 : Entry := mkEntry ("0x" +:+ word "aa") [("logIndex", "0x0")].
Definition e2 : Entry := mkEntry ("0x" +:+ word "bb") [("logIndex", "0x1")].
Definition c1 : callback := 1%nat.
Definition c2 : callback := 2%nat.


(** The events of one pass of the live loop. *)
Definition pass_events (o : object) (batch : list Entry) : list event :=
  GetFilterChanges (poll_namespace (cls o)) (filter_id o)
    :: dispatch_events o batch ++ [sleep_event o].

(** Calls to the remote source. *)
Definition is_remote (ev : event) : bool :=
  match ev with
  | GetFilterChanges _ _ | GetFilterLogs _ _ | UninstallFilter _ _ => true
  | _ => false
  end.

(** The keys a FilterSpec may hold. *)
Definition filter_spec_keys : list string :=
  ["topics"; "address"; "fromBlock"; "toBlock"].

(** A live filter whose task has entered its loop, with two callbacks
    registered and a batch of two entries waiting at the remote source. *)
Definition live_sample : state :=
  run_actions [a_watch [c1; c2]; a_run_enter] (init Filter 7 [[e1; e2]]).

(** A PastLogFilter that has been watched, with one entry in the log. *)
Definition past_sample : state :=
  run_actions [a_watch [c1]] (init PastLogFilter 7 [[e1]]).

End Claims.

(* ===================================================================== *)
(** ** Properties of construct_event_filter_params *)
(* ===================================================================== *)

Module ParamsFacts.
Import Params Claims.

Section Builder.
Context {event_abi argument_filters : Type}.
Variable topic_enc : event_abi -> option argument_filters -> list value.
Variable data_enc : event_abi -> option argument_filters -> data_filter_set_t.

Local Abbreviation build := (construct_event_filter_params topic_enc data_enc).

Lemma block_entry_other key v (fp : gmap string value) k :
  k <> key -> block_entry key v fp !! k = fp !! k.
Proof.
  intros Hk. unfold block_entry. destruct (is_None v); [done|].
  by rewrite lookup_insert_ne.
Qed.

(** The call returns exactly when the address merge does, and the block
    keys do not disturb the other keys. *)
Lemma build_ok abi c af topics fb tb address fp0 :
  address_entry address c
    (<["topics" := topics_entry (topic_set topic_enc abi af topics)]> ∅) = Ok fp0 ->
  exists fp, build abi c af topics fb tb address = Ok (data_enc abi af, fp)
             /\ fp !! "address" = fp0 !! "address"
             /\ fp !! "topics" = fp0 !! "topics".
Proof.
  intros H. unfold construct_event_filter_params. rewrite H.
  eexists. split; [reflexivity|].
  split; rewrite !block_entry_other; done.
Qed.

Lemma build_raise abi c af topics fb tb address e :
  address_entry address c
    (<["topics" := topics_entry (topic_set topic_enc abi af topics)]> ∅) = Raise e ->
  build abi c af topics fb tb address = Raise e.
Proof. intros H. unfold construct_event_filter_params. by rewrite H. Qed.

Lemma address_entry_topics address c (fp fp' : gmap string value) :
  address_entry address c fp = Ok fp' -> fp' !! "topics" = fp !! "topics".
Proof.
  unfold address_entry.
  destruct (truthy address && truthy c).
  - destruct address; intros [= <-]; by rewrite lookup_insert_ne.
  - destruct (truthy address); [intros [= <-]; by rewrite lookup_insert_ne|].
    destruct (truthy c); intros [= <-]; [by rewrite lookup_insert_ne|done].
Qed.

(** C4 (as amended): the address merge, where an argument counts as
    given when it is true in Python's sense (not [None], not empty, not
    zero). With both given, a list gets [contract_address] appended, a
    string becomes the pair of the two, and a value that is neither a
    sequence nor a string raises [ValueError] (nothing is said of a
    sequence that is not a list); with one given it is stored as it is;
    with none the key is left out. *)
Theorem address_merge_truthy : address_merge topic_enc data_enc truthy.
Proof.
  intros abi c af topics fb tb address r stores. subst r stores. cbv beta.
  set (fp0 := <["topics" := topics_entry (topic_set topic_enc abi af topics)]>
                (∅ : gmap string value)).
  assert (Hok : forall fp1 v, address_entry address c fp0 = Ok fp1 ->
                              fp1 !! "address" = v ->
            exists d fp, build abi c af topics fb tb address = Ok (d, fp)
                         /\ fp !! "address" = v).
  { intros fp1 v H1 H2. destruct (build_ok abi c af topics fb tb address fp1 H1)
      as (fp & Hb & Ha & _). exists (data_enc abi af), fp. split; congruence. }
  repeat split.
  - intros l ->. eapply Hok.
    + unfold address_entry. rewrite H, H0. reflexivity.
    + by rewrite lookup_insert_eq.
  - intros Hs. destruct address; try discriminate.
    all: eapply Hok;
      [unfold address_entry; rewrite H, H0; reflexivity
      |by rewrite lookup_insert_eq].
  - intros Hl Hs. eexists. apply build_raise. unfold address_entry.
    rewrite H, H0, Hl, Hs. reflexivity.
  - intros Ha Hc. eapply Hok.
    + unfold address_entry. rewrite Ha, Hc. reflexivity.
    + by rewrite lookup_insert_eq.
  - intros Ha Hc. eapply Hok.
    + unfold address_entry. rewrite Ha, Hc. reflexivity.
    + by rewrite lookup_insert_eq.
  - intros Ha Hc. eapply Hok.
    + unfold address_entry. rewrite Ha, Hc. reflexivity.
    + unfold fp0. by rewrite lookup_insert_ne.
Qed.

Lemma address_entry_ok address c (fp : gmap string value) :
  address_unsupported address c = false ->
  exists fp', address_entry address c fp = Ok fp'.
Proof.
  unfold address_unsupported, address_entry.
  destruct (truthy address), (truthy c), address; simpl;
    try discriminate; eauto.
Qed.

(** C5: the combined topic sequence is the encoded set, with [topics] put
    in front of it when [topics] is not [None]; unless the address merge
    fails the call returns, and a combined sequence of exactly one element
    that is itself a sequence (a list or a tuple) is stored as that
    element, any other combined sequence is stored as it is. *)
Theorem topics_combined_then_collapsed abi c af topics fb tb address :
  exists combined,
    (topics = VNone -> combined = topic_enc abi af)
    /\ (topics <> VNone -> combined = topics :: topic_enc abi af)
    /\ (address_unsupported address c = false ->
        exists d fp,
          construct_event_filter_params topic_enc data_enc abi c af topics
            fb tb address = Ok (d, fp)
          /\ (forall t0, combined = [t0] -> is_list_like t0 = true ->
                         fp !! "topics" = Some t0)
          /\ ((forall t0, combined = [t0] -> is_list_like t0 = false) ->
              fp !! "topics" = Some (VList combined))).
Proof.
  exists (topic_set topic_enc abi af topics).
  split; [by intros ->|].
  split; [intros Hn; unfold topic_set; by destruct topics|].
  intros Ha.
  destruct (address_entry_ok address c
              (<["topics" := topics_entry (topic_set topic_enc abi af topics)]> ∅)
              Ha) as [fp0 Hfp0].
  destruct (build_ok abi c af topics fb tb address fp0 Hfp0)
    as (fp & Hb & _ & Ht).
  rewrite (address_entry_topics _ _ _ _ Hfp0), lookup_insert_eq in Ht.
  exists (data_enc abi af), fp. split; [exact Hb|]. split.
  - intros t0 Hc Hl. rewrite Ht, Hc. simpl. by rewrite Hl.
  - intros Hc. rewrite Ht. unfold topics_entry.
    destruct (topic_set topic_enc abi af topics) as [|t0 [|t1 ts]]; try done.
    by rewrite (Hc t0 eq_refl).
Qed.

End Builder.

(** The address merge, run on a list and a contract address. *)
Lemma address_merge_truthy_witness :
  exists d fp,
    construct_event_filter_params sample_topic_set sample_data_set tt
      (VStr "0xB") None VNone VNone VNone (VList [VStr "0xA"]) = Ok (d, fp)
    /\ fp !! "address" = Some (VList [VStr "0xA"; VStr "0xB"]).
Proof.
  refine (proj1 (proj1 (address_merge_truthy sample_topic_set sample_data_set
                          tt (VStr "0xB") None VNone VNone VNone
                          (VList [VStr "0xA"])) _ _) [VStr "0xA"] _);
    reflexivity.
Defined.

(** C4 (as stated) fails when "given" means "not [None]": an empty list
    for [address] together with a contract address stores the bare
    contract address, not the one-element list. *)
Lemma address_merge_provided_counterexample :
  ~ address_merge sample_topic_set sample_data_set provided.
Proof.
  intros H.
  destruct (H tt (VStr "0xB") None VNone VNone VNone (VList []))
    as [Hboth _].
  destruct (Hboth eq_refl eq_refl) as [Hlist _].
  destruct (Hlist [] eq_refl) as (d & fp & Hr & Hfp).
  vm_compute in Hr. injection Hr as _ <-.
  vm_compute in Hfp. discriminate Hfp.
Qed.

(** Topic collapse on the combined sequence [[["0xT1", "0xT2"]]]. *)
Lemma topics_combined_then_collapsed_witness :
  exists d fp,
    construct_event_filter_params (fun (_ : unit) (_ : option unit) => [])
      sample_data_set tt VNone None (VList [VStr "0xT1"; VStr "0xT2"])
      VNone VNone VNone = Ok (d, fp)
    /\ fp !! "topics" = Some (VList [VStr "0xT1"; VStr "0xT2"]).
Proof.
  destruct (topics_combined_then_collapsed
              (fun (_ : unit) (_ : option unit) => []) sample_data_set
              tt VNone None (VList [VStr "0xT1"; VStr "0xT2"])
              VNone VNone VNone)
    as (combined & _ & Hsome & Hok).
  destruct (Hok eq_refl) as (d & fp & Hb & Hcollapse & _).
  exists d, fp. split; [exact Hb|].
  apply Hcollapse; [|reflexivity]. apply Hsome. discriminate.
Defined.

End ParamsFacts.

(* ===================================================================== *)
(** ** Properties of the filter classes *)
(* ===================================================================== *)

Module EngineFacts.
Import Engine Claims.

(** Unfolds the monad down to functions on states. *)
Ltac run :=
  unfold mbind, mret, M_bind, M_ret, bind, ret, raise, get_self, update, emit,
    next_reply in *; simpl in *.

Lemma app_assoc_cons {A} (t : list A) x l : (t ++ [x]) ++ l = t ++ x :: l.
Proof. by rewrite <- app_assoc. Qed.

(** *** The dispatch loops *)

Lemma for_callbacks_run entry cbs o r t :
  for_callbacks entry cbs (mkState o r t)
  = (Ok tt, mkState o r (t ++ flat_map (pair_events o entry) cbs)).
Proof.
  revert t. induction cbs as [|cb cbs IH]; intros t.
  - simpl. by rewrite app_nil_r.
  - simpl. unfold is_valid_entry, format_entry, call. run.
    destruct (is_valid_entry_value o entry) eqn:Hv; simpl; rewrite IH;
      unfold pair_events; rewrite ?Hv; simpl;
      rewrite <- ?app_assoc; reflexivity.
Qed.

Lemma for_entries_run entries o r t :
  for_entries entries (mkState o r t)
  = (Ok tt, mkState o r (t ++ dispatch_events o entries)).
Proof.
  revert t. induction entries as [|e es IH]; intros t.
  - simpl. by rewrite app_nil_r.
  - simpl. run. rewrite for_callbacks_run, IH.
    unfold dispatch_events. simpl. by rewrite <- app_assoc.
Qed.

Lemma dispatch_run batch o r t :
  dispatch batch (mkState o r t)
  = (Ok tt, mkState o r (t ++ dispatch_events o batch)).
Proof.
  destruct batch as [|e es].
  - simpl. by rewrite app_nil_r.
  - apply for_entries_run.
Qed.

(** One pass of the live loop on a running filter: one fetch, the
    dispatch of the batch, one sleep. *)
Lemma loop_pass_run o r t :
  is_running o = true ->
  loop_pass (mkState o r t)
  = (Ok true,
     mkState o (tl r)
       (t ++ GetFilterChanges (poll_namespace (cls o)) (filter_id o)
          :: dispatch_events o (hd [] r) ++ [sleep_event o])).
Proof.
  intros Hrun. unfold loop_pass, getFilterChanges, poll_sleep. run.
  rewrite Hrun. rewrite dispatch_run. simpl.
  unfold sleep_event, sleep_random, sleep.
  destruct (poll_interval o); run;
    by rewrite <- !app_assoc.
Qed.

Lemma loop_pass_idle o r t :
  is_running o = false -> loop_pass (mkState o r t) = (Ok false, mkState o r t).
Proof. intros Hrun. unfold loop_pass. run. by rewrite Hrun. Qed.

(** The replay of PastLogFilter: one fetch of the full log and the
    dispatch of the batch. *)
Lemma past_replay_run o r t :
  past_replay (mkState o r t)
  = (Ok tt,
     mkState o (tl r)
       (t ++ GetFilterLogs eth (filter_id o) :: dispatch_events o (hd [] r))).
Proof.
  unfold past_replay, getFilterLogs. run. rewrite dispatch_run.
  by rewrite <- app_assoc.
Qed.

Lemma dispatch_events_set_running b o batch :
  dispatch_events (set_running b o) batch = dispatch_events o batch.
Proof. reflexivity. Qed.

(** *** Reading the log of a dispatch *)

Lemma calls_of_app evs1 evs2 :
  calls_of (evs1 ++ evs2) = calls_of evs1 ++ calls_of evs2.
Proof. unfold calls_of. by rewrite flat_map_app. Qed.

Lemma calls_of_pairs o entry cbs :
  calls_of (flat_map (pair_events o entry) cbs)
  = if is_valid_entry_value o entry
    then map (fun cb => (cb, format_entry_value o entry)) cbs
    else [].
Proof.
  induction cbs as [|cb cbs IH]; simpl.
  - by destruct (is_valid_entry_value o entry).
  - rewrite calls_of_app, IH. unfold pair_events.
    by destruct (is_valid_entry_value o entry).
Qed.

Lemma calls_of_dispatch o batch :
  calls_of (dispatch_events o batch) = expected_calls o batch.
Proof.
  unfold dispatch_events, expected_calls.
  induction batch as [|e es IH]; simpl; [done|].
  by rewrite calls_of_app, calls_of_pairs, IH.
Qed.

Lemma filter_flat_map {A B} (p : B -> bool) (f : A -> list B) (l : list A) :
  List.filter p (flat_map f l) = flat_map (fun a => List.filter p (f a)) l.
Proof.
  induction l as [|a l IH]; simpl; [done|]. by rewrite List.filter_app, IH.
Qed.

Lemma filter_dispatch_events (p : event -> bool) o batch :
  List.filter p (dispatch_events o batch)
  = flat_map (fun entry =>
                flat_map (fun cb => List.filter p (pair_events o entry cb))
                         (callbacks o)) batch.
Proof.
  unfold dispatch_events. rewrite filter_flat_map.
  apply flat_map_ext; intros e. apply filter_flat_map.
Qed.

Lemma flat_map_nil {A B} (f : A -> list B) (l : list A) :
  (forall a, f a = []) -> flat_map f l = [].
Proof.
  intros Hf. induction l as [|a l IH]; simpl; [done|]. by rewrite Hf, IH.
Qed.

Lemma length_flat_map_const {A B} (f : A -> list B) (l : list A) n :
  (forall a, length (f a) = n) -> length (flat_map f l) = (length l * n)%nat.
Proof.
  intros Hf. induction l as [|a l IH]; simpl; [done|].
  by rewrite length_app, Hf, IH.
Qed.

(** A dispatch neither fetches nor sleeps. *)
Lemma dispatch_no_fetch o batch :
  List.filter is_fetch (dispatch_events o batch) = [].
Proof.
  rewrite filter_dispatch_events.
  apply flat_map_nil; intros e. apply flat_map_nil; intros cb.
  unfold pair_events. by destruct (is_valid_entry_value o e).
Qed.

Lemma dispatch_no_sleep o batch :
  List.filter is_sleep (dispatch_events o batch) = [].
Proof.
  rewrite filter_dispatch_events.
  apply flat_map_nil; intros e. apply flat_map_nil; intros cb.
  unfold pair_events. by destruct (is_valid_entry_value o e).
Qed.

Lemma hook_events_dispatch o batch :
  hook_events (dispatch_events o batch) = pair_hook_events o batch.
Proof.
  unfold hook_events. rewrite filter_dispatch_events.
  apply flat_map_ext; intros e. apply flat_map_ext; intros cb.
  unfold pair_events. by destruct (is_valid_entry_value o e).
Qed.

Lemma count_IsValid_dispatch o batch :
  count is_IsValid (dispatch_events o batch)
  = (length batch * length (callbacks o))%nat.
Proof.
  unfold count. rewrite filter_dispatch_events.
  apply length_flat_map_const; intros e.
  rewrite (length_flat_map_const _ _ 1); [lia|].
  intros cb. unfold pair_events. by destruct (is_valid_entry_value o e).
Qed.

Lemma count_Format_dispatch o batch :
  count is_Format (dispatch_events o batch)
  = (length (List.filter (is_valid_entry_value o) batch)
     * length (callbacks o))%nat.
Proof.
  unfold count. rewrite filter_dispatch_events.
  induction batch as [|e es IH]; [done|].
  cbn [flat_map List.filter]. rewrite length_app, IH.
  destruct (is_valid_entry_value o e) eqn:Hv; cbn [length].
  - rewrite (length_flat_map_const _ _ 1); [lia|].
    intros cb. unfold pair_events. by rewrite Hv.
  - rewrite flat_map_nil; [done|].
    intros cb. unfold pair_events. by rewrite Hv.
Qed.

Lemma hooks_per_pair_dispatch o batch :
  hooks_per_pair o batch (dispatch_events o batch).
Proof.
  repeat split.
  - apply hook_events_dispatch.
  - apply count_IsValid_dispatch.
  - apply count_Format_dispatch.
  - intros Hc. rewrite hook_events_dispatch. unfold pair_hook_events.
    rewrite Hc. by apply flat_map_nil.
Qed.

(** Events that are not hook evaluations do not count. *)
Lemma hooks_per_pair_framed o batch ev1 evs ev2 :
  is_IsValid ev1 || is_Format ev1 = false ->
  forallb (fun ev => negb (is_IsValid ev || is_Format ev)) ev2 = true ->
  hooks_per_pair o batch evs ->
  hooks_per_pair o batch (ev1 :: evs ++ ev2).
Proof.
  intros H1 H2 (Hh & Hv & Hf & He).
  assert (Hnil : forall p : event -> bool,
             (forall ev, p ev = true -> is_IsValid ev || is_Format ev = true) ->
             List.filter p ev2 = []).
  { intros p Hp. induction ev2 as [|ev ev2 IH]; simpl in *; [done|].
    apply andb_prop in H2 as [Hev H2].
    destruct (p ev) eqn:Hpe.
    - apply Hp in Hpe. rewrite Hpe in Hev. discriminate.
    - by apply IH. }
  apply orb_false_elim in H1 as [H1v H1f].
  unfold hooks_per_pair, hook_events, count in *. simpl.
  rewrite H1v, H1f. simpl. rewrite !List.filter_app.
  rewrite !Hnil, !app_nil_r; try done.
  - intros ev Hev. rewrite Hev. apply orb_true_r.
  - intros ev Hev. by rewrite Hev.
Qed.

(** *** The claims on dispatch *)

(** C6: one pass of the live poll loop calls the callbacks entry by entry
    in source order, and for each entry that passes the validity hook all
    registered callbacks in registration order, each with the formatted
    entry; for entries [ea, eb] and callbacks [ca, cb] the calls are
    ca(ea), cb(ea), ca(eb), cb(eb). *)
Theorem loop_pass_dispatch_order s :
  is_running (self s) = true ->
  exists s' evs,
    loop_pass s = (Ok true, s')
    /\ trace s' = trace s ++ evs
    /\ calls_of evs = expected_calls (self s) (hd [] (remote s))
    /\ (forall ea eb ca cb,
          hd [] (remote s) = [ea; eb] ->
          callbacks (self s) = [ca; cb] ->
          is_valid_entry_value (self s) ea = true ->
          is_valid_entry_value (self s) eb = true ->
          calls_of evs = [(ca, format_entry_value (self s) ea);
                          (cb, format_entry_value (self s) ea);
                          (ca, format_entry_value (self s) eb);
                          (cb, format_entry_value (self s) eb)]).
Proof.
  destruct s as [o r t]; simpl. intros Hrun.
  rewrite (loop_pass_run _ _ _ Hrun).
  eexists _, _. split; [reflexivity|]. split; [reflexivity|].
  assert (Hc : calls_of
                 (GetFilterChanges (poll_namespace (cls o)) (filter_id o)
                    :: dispatch_events o (hd [] r) ++ [sleep_event o])
               = expected_calls o (hd [] r)).
  { change (calls_of ([GetFilterChanges (poll_namespace (cls o)) (filter_id o)]
                        ++ dispatch_events o (hd [] r) ++ [sleep_event o])
            = expected_calls o (hd [] r)).
    rewrite !calls_of_app, calls_of_dispatch.
    unfold sleep_event. destruct (poll_interval o); simpl; by rewrite app_nil_r. }
  split; [exact Hc|].
  intros ea eb ca cb Hb Hcb Hva Hvb. rewrite Hc.
  unfold expected_calls. rewrite Hb, Hcb. simpl. by rewrite Hva, Hvb.
Qed.

(** The dispatch order on the live sample. *)
Lemma loop_pass_dispatch_order_witness :
  exists s' evs,
    loop_pass live_sample = (Ok true, s')
    /\ trace s' = trace live_sample ++ evs
    /\ calls_of evs = [(c1, e1); (c2, e1); (c1, e2); (c2, e2)].
Proof.
  destruct (loop_pass_dispatch_order live_sample eq_refl)
    as (s' & evs & Hrun & Htrace & _ & Hcalls).
  exists s', evs. split; [exact Hrun|]. split; [exact Htrace|].
  exact (Hcalls e1 e2 c1 c2 eq_refl eq_refl eq_refl eq_refl).
Defined.

(** C10: in the live poll loop and in the replay of PastLogFilter the
    validity hook is evaluated once for every pair of a fetched entry and
    a registered callback, each time followed by one evaluation of the
    formatter when the entry passes; with an empty registry neither hook
    is evaluated. *)
Theorem hooks_evaluated_per_pair s :
  (is_running (self s) = true ->
   exists s' evs,
     loop_pass s = (Ok true, s')
     /\ trace s' = trace s ++ evs
     /\ hooks_per_pair (self s) (hd [] (remote s)) evs)
  /\ (exists s' evs,
        past_replay s = (Ok tt, s')
        /\ trace s' = trace s ++ evs
        /\ hooks_per_pair (self s) (hd [] (remote s)) evs).
Proof.
  destruct s as [o r t]; simpl. split.
  - intros Hrun. rewrite (loop_pass_run _ _ _ Hrun).
    eexists _, _. split; [reflexivity|]. split; [reflexivity|].
    apply hooks_per_pair_framed; [done| |apply hooks_per_pair_dispatch].
    unfold sleep_event. by destruct (poll_interval o).
  - rewrite past_replay_run.
    eexists _, _. split; [reflexivity|]. split; [reflexivity|].
    rewrite <- (app_nil_r (dispatch_events o (hd [] r))).
    apply hooks_per_pair_framed; [done|done|apply hooks_per_pair_dispatch].
Qed.

(** On the live sample the validity hook runs four times, once per pair
    of entry and callback. *)
Lemma hooks_evaluated_per_pair_witness :
  exists s' evs,
    loop_pass live_sample = (Ok true, s')
    /\ trace s' = trace live_sample ++ evs
    /\ count is_IsValid evs = 4%nat.
Proof.
  destruct (proj1 (hooks_evaluated_per_pair live_sample) eq_refl)
    as (s' & evs & Hrun & Htrace & _ & Hcount & _).
  exists s', evs. split; [exact Hrun|]. split; [exact Htrace|].
  exact Hcount.
Defined.

(** C7: a run of PastLogFilter from a state that is not Stopped returns
    normally, issues exactly one fetch, the full-log one, dispatches the
    batch it got, never sleeps, and leaves the filter Idle. *)
Theorem past_run_once s :
  state_of (self s) <> Stopped ->
  exists s' evs,
    PastLogFilter_run s = (Ok tt, s')
    /\ state_of (self s') = Idle
    /\ trace s' = trace s ++ evs
    /\ remote s' = tl (remote s)
    /\ List.filter is_fetch evs = [GetFilterLogs eth (filter_id (self s))]
    /\ List.filter is_sleep evs = []
    /\ calls_of evs = expected_calls (self s) (hd [] (remote s)).
Proof.
  destruct s as [o r t]; simpl. intros Hst.
  assert (Hs : stopped o = false).
  { unfold state_of in Hst. by destruct (stopped o). }
  unfold PastLogFilter_run, run_enter, past_finish. run. rewrite Hs. simpl.
  rewrite past_replay_run. simpl.
  eexists _, _. split; [reflexivity|].
  split; [unfold state_of; simpl; by rewrite Hs|].
  split; [reflexivity|]. split; [reflexivity|].
  rewrite dispatch_events_set_running. simpl.
  rewrite dispatch_no_fetch, dispatch_no_sleep.
  repeat split.
  change (calls_of ([GetFilterLogs eth (filter_id o)]
                      ++ dispatch_events o (hd [] r))
          = expected_calls o (hd [] r)).
  by rewrite calls_of_app, calls_of_dispatch.
Qed.

(** The run of the watched PastLogFilter of the samples. *)
Lemma past_run_once_witness :
  exists s' evs,
    PastLogFilter_run past_sample = (Ok tt, s')
    /\ state_of (self s') = Idle
    /\ trace s' = trace past_sample ++ evs
    /\ List.filter is_fetch evs = [GetFilterLogs eth 7]
    /\ List.filter is_sleep evs = [].
Proof.
  assert (Hst : state_of (self past_sample) <> Stopped)
    by (vm_compute; discriminate).
  destruct (past_run_once past_sample Hst)
    as (s' & evs & Hrun & Hidle & Htrace & _ & Hfetch & Hsleep & _).
  exists s', evs. by repeat split.
Defined.

(** *** watch *)

(** C9: on a Stopped filter [watch] raises [ValueError] and changes
    nothing; otherwise it appends the callbacks to the registry in the
    order given, and asks for the background task to be started when the
    filter is Idle but not when it is Running. *)
Theorem watch_by_state s cbs :
  match state_of (self s) with
  | Stopped =>
      exists msg s',
        watch cbs s = (Raise (ValueError msg), s')
        /\ self s' = self s
        /\ trace s' = trace s ++ [Warn "watch"]
  | Idle =>
      exists s',
        watch cbs s = (Ok tt, s')
        /\ callbacks (self s') = callbacks (self s) ++ cbs
        /\ state_of (self s') = Idle
        /\ trace s' = trace s ++ [Warn "watch"; Start; Sleep 0]
  | Running =>
      exists s',
        watch cbs s = (Ok tt, s')
        /\ callbacks (self s') = callbacks (self s) ++ cbs
        /\ state_of (self s') = Running
        /\ trace s' = trace s ++ [Warn "watch"; Sleep 0]
  end.
Proof.
  destruct s as [o r t]; simpl.
  unfold state_of, watch, _warn_async_deprecated, start, sleep. run.
  unfold is_running at 1 3.
  destruct (stopped o) eqn:Hs; simpl.
  - eexists _, _. split; [reflexivity|]. by split.
  - destruct (running o) as [[|]|] eqn:Hr; simpl.
    all: unfold is_running; simpl; rewrite ?Hr; simpl.
    all: eexists; split; [reflexivity|]; simpl.
    all: rewrite ?Hs, ?Hr; simpl.
    all: repeat split; by rewrite <- ?app_assoc.
Qed.

(** *** Computations that leave the object alone *)

Lemma keeps_ret {A} (a : A) : keeps_self (mret a).
Proof. by intros s. Qed.

Lemma keeps_raise {A} e : keeps_self (raise e : M A).
Proof. by intros s. Qed.

Lemma keeps_emit ev : keeps_self (emit ev).
Proof. by intros s. Qed.

Lemma keeps_get_self : keeps_self get_self.
Proof. by intros s. Qed.

Lemma keeps_next_reply : keeps_self next_reply.
Proof. by intros s. Qed.

Lemma keeps_bind {A B} (m : M A) (k : A -> M B) :
  keeps_self m -> (forall a, keeps_self (k a)) -> keeps_self (m ≫= k).
Proof.
  intros Hm Hk s. specialize (Hm s). unfold mbind, M_bind, bind.
  destruct (m s) as [[a|e] s1]; simpl in *; [|done].
  by rewrite Hk.
Qed.

Create HintDb keeps discriminated.
#[local] Hint Resolve keeps_ret keeps_raise keeps_emit keeps_get_self
  keeps_next_reply : keeps.

(** Splits a computation at its binds and case distinctions. *)
Ltac keeps :=
  repeat first
    [ progress auto with keeps
    | apply keeps_bind; [|intros ?]
    | match goal with
      | |- keeps_self (if ?b then _ else _) => destruct b
      | |- keeps_self (match ?x with _ => _ end) => destruct x
      end ].

Lemma keeps_for_callbacks entry cbs : keeps_self (for_callbacks entry cbs).
Proof.
  induction cbs as [|cb cbs IH]; simpl; [auto with keeps|].
  unfold is_valid_entry, format_entry, call. keeps.
Qed.

Lemma keeps_dispatch batch : keeps_self (dispatch batch).
Proof.
  assert (H : keeps_self (for_entries batch)).
  { induction batch as [|e es IH]; simpl; [auto with keeps|].
    pose proof keeps_for_callbacks. keeps. }
  destruct batch; [apply keeps_ret | exact H].
Qed.

Lemma keeps_comprehension entries : keeps_self (comprehension entries).
Proof.
  induction entries as [|e es IH]; simpl; [auto with keeps|].
  unfold is_valid_entry, format_entry. keeps.
Qed.

#[local] Hint Resolve keeps_for_callbacks keeps_dispatch keeps_comprehension
  : keeps.

Lemma keeps_loop_pass : keeps_self loop_pass.
Proof.
  unfold loop_pass, getFilterChanges, poll_sleep, sleep_random, sleep. keeps.
Qed.

Lemma keeps_past_replay : keeps_self past_replay.
Proof. unfold past_replay, getFilterLogs. keeps. Qed.

Lemma keeps_get_new_entries : keeps_self get_new_entries.
Proof.
  unfold get_new_entries, _ensure_not_running, LogFilter_ensure_not_running,
    getFilterChanges, _filter_valid_entries, _format_log_entries,
    LogFilter_format_log_entries.
  keeps.
Qed.

Lemma keeps_get_all_entries : keeps_self get_all_entries.
Proof.
  unfold get_all_entries, _ensure_not_running, LogFilter_ensure_not_running,
    getFilterLogs, _filter_valid_entries, _format_log_entries,
    LogFilter_format_log_entries.
  keeps.
Qed.

Lemma keeps_get only_changes : keeps_self (LogFilter_get only_changes).
Proof.
  pose proof keeps_get_new_entries. pose proof keeps_get_all_entries.
  unfold LogFilter_get, _ensure_not_running, LogFilter_ensure_not_running.
  keeps.
Qed.

#[local] Hint Resolve keeps_loop_pass keeps_past_replay keeps_get_new_entries
  keeps_get_all_entries keeps_get : keeps.

Lemma keeps_void {A} (m : M A) : keeps_self m -> keeps_self (void m).
Proof. intros H. unfold void. keeps. Qed.

(** *** Lifecycle *)

(** Every action leaves in the object what [effect] says. *)
Lemma exec_effect k a m s :
  exec k a = Some m -> self (snd (m s)) = effect a (self s).
Proof.
  destruct s as [o r t].
  destruct a; simpl; intros Hm.
  - injection Hm as <-.
    unfold watch, _warn_async_deprecated, start, sleep. run.
    destruct (stopped o); [done|]. simpl.
    by destruct (is_running _).
  - injection Hm as <-. reflexivity.
  - injection Hm as <-. apply (keeps_void _ keeps_get_new_entries).
  - injection Hm as <-. apply (keeps_void _ keeps_get_all_entries).
  - destruct (is_LogFilter k); [|discriminate]. injection Hm as <-.
    apply (keeps_void _ (keeps_get only_changes)).
  - destruct (is_LogFilter k); [|discriminate]. injection Hm as <-.
    unfold set_data_filters. run.
    destruct (any_tuple data_filter_set0); [|done].
    by destruct (construct_data_filter_regex data_filter_set0).
  - injection Hm as <-. unfold run_enter. run. by destruct (stopped o).
  - destruct k; try discriminate; injection Hm as <-;
      apply (keeps_void _ keeps_loop_pass).
  - destruct k; try discriminate. injection Hm as <-.
    apply keeps_past_replay.
  - destruct k; try discriminate. by injection Hm as <-.
Qed.

Lemma effect_cls a o : cls (effect a o) = cls o.
Proof.
  destruct a; simpl; try done.
  - by destruct (stopped o).
  - destruct (any_tuple _); [|done].
    by destruct (construct_data_filter_regex _).
  - by destruct (stopped o).
Qed.

Lemma effect_flags a o :
  (stopped (effect a o), is_running (effect a o))
  = match a with
    | a_stop_watching _ => (true, false)
    | a_run_enter => if stopped o then (true, is_running o) else (false, true)
    | a_past_finish => (stopped o, false)
    | _ => (stopped o, is_running o)
    end.
Proof.
  destruct a; simpl; try done.
  - destruct (stopped o) eqn:E.
    all: simpl.
    all: rewrite ?E; done.
  - destruct (any_tuple _); [|done].
    by destruct (construct_data_filter_regex _).
  - destruct (stopped o) eqn:E; simpl; rewrite ?E; done.
Qed.

Lemma state_of_flags o o' :
  (stopped o', is_running o') = (stopped o, is_running o) ->
  state_of o' = state_of o.
Proof. unfold state_of. by intros [= -> ->]. Qed.

(** One step: an allowed move, or the end of a PastLogFilter run. *)
Lemma step_move s s' :
  step s s' ->
  cls (self s') = cls (self s)
  /\ (allowed (state_of (self s)) (state_of (self s')) = true
      \/ (cls (self s) = PastLogFilter
          /\ state_of (self s) = Running /\ state_of (self s') = Idle)).
Proof.
  intros [a m s0 Hm].
  rewrite (exec_effect _ _ _ s0 Hm). split; [apply effect_cls|].
  pose proof (effect_flags a (self s0)) as Hf.
  revert Hf. generalize (effect a (self s0)). intros o' Hf.
  unfold state_of.
  destruct a;
    try (destruct (stopped (self s0)), (is_running (self s0));
         injection Hf as Hs Hr; rewrite Hs, ?Hr; by left).
  simpl in Hm. destruct (cls (self s0)); try discriminate.
  destruct (stopped (self s0)), (is_running (self s0));
    injection Hf as Hs Hr; rewrite Hs, ?Hr; auto.
Qed.

Lemma allowed_refl a : allowed a a = true.
Proof. by destruct a. Qed.

Lemma allowed_trans a b c :
  allowed a b = true -> allowed b c = true -> allowed a c = true.
Proof. by destruct a, b, c. Qed.

(** C2 (as amended): along every sequence of operations and loop steps
    no step leaves Stopped; each single step is a move along Idle, Running,
    Stopped in that order (Running entered from Idle only, Stopped from
    Idle or Running) except that the run of a PastLogFilter ends with the
    move from Running back to Idle; for every other class the state only
    moves forward along that order. *)
Theorem lifecycle_moves :
  (forall s s',
      step s s' ->
      allowed (state_of (self s)) (state_of (self s')) = true
      \/ (cls (self s) = PastLogFilter
          /\ state_of (self s) = Running /\ state_of (self s') = Idle))
  /\ (forall s s',
        rtc step s s' ->
        (state_of (self s) = Stopped -> state_of (self s') = Stopped)
        /\ (cls (self s) <> PastLogFilter ->
            allowed (state_of (self s)) (state_of (self s')) = true)).
Proof.
  split; [intros s s' H; by apply step_move|].
  intros s s' Hrtc.
  induction Hrtc as [s|s s1 s' Hstep Hrtc [IHs IHa]].
  - split; [done|]. intros _. apply allowed_refl.
  - destruct (step_move _ _ Hstep) as [Hcls Hmove]. split.
    + intros Hs. apply IHs.
      destruct Hmove as [Ha|(_ & Hr & _)]; [|congruence].
      rewrite Hs in Ha. by destruct (state_of (self s1)).
    + intros Hk.
      destruct Hmove as [Ha|(Hp & _)]; [|congruence].
      eapply allowed_trans; [exact Ha|]. apply IHa. congruence.
Qed.

(** A LogFilter that is watched, stopped, and whose task then tries to
    enter its loop: Idle, Idle, Stopped, Stopped. *)
Lemma lifecycle_moves_witness :
  let s0 := init LogFilter 7 [[e1]] in
  let s1 := run_actions [a_watch [c1]] s0 in
  let s2 := run_actions [a_stop_watching 0] s1 in
  let s3 := run_actions [a_run_enter] s2 in
  state_of (self s2) = Stopped
  /\ state_of (self s3) = Stopped
  /\ allowed (state_of (self s0)) (state_of (self s3)) = true.
Proof.
  intros s0 s1 s2 s3.
  assert (H1 : step s0 s1) by exact (step_exec (a_watch [c1]) _ s0 eq_refl).
  assert (H2 : step s1 s2)
    by exact (step_exec (a_stop_watching 0) _ s1 eq_refl).
  assert (H3 : step s2 s3) by exact (step_exec a_run_enter _ s2 eq_refl).
  assert (H23 : rtc step s2 s3) by (eapply rtc_l; [exact H3|apply rtc_refl]).
  assert (H03 : rtc step s0 s3)
    by (eapply rtc_l; [exact H1|]; eapply rtc_l; [exact H2|exact H23]).
  destruct lifecycle_moves as [Hone Hmany].
  destruct (Hone s0 s1 H1) as [_|(Hpast & _)]; [|discriminate Hpast].
  split; [reflexivity|].
  split; [exact (proj1 (Hmany s2 s3 H23) eq_refl)|].
  apply (proj2 (Hmany s0 s3 H03)). discriminate.
Defined.

(** C2 (as stated) fails: a PastLogFilter that runs to its end moves from
    Running back to Idle. *)
Lemma lifecycle_monotone_counterexample :
  ~ lifecycle_monotone (fun _ => True).
Proof.
  intros H.
  pose (s := run_actions [a_watch [c1]; a_run_enter; a_past_replay]
               (init PastLogFilter 7 [[e1]])).
  assert (Hstep : step s (run_actions [a_past_finish] s)).
  { exact (step_exec a_past_finish _ s eq_refl). }
  specialize (H _ _ I Hstep). vm_compute in H. discriminate H.
Qed.

(** *** Synchronous reads *)

Lemma comprehension_run entries o r t :
  comprehension entries (mkState o r t)
  = (Ok (read_result o entries), mkState o r (t ++ read_events o entries)).
Proof.
  revert t. induction entries as [|e es IH]; intros t.
  - simpl. by rewrite app_nil_r.
  - cbn [comprehension]. unfold is_valid_entry, format_entry. run.
    unfold read_result, read_events. cbn [List.filter flat_map].
    destruct (is_valid_entry_value o e) eqn:Hv; simpl; rewrite IH; simpl;
      rewrite <- ?app_assoc; reflexivity.
Qed.

(** On a LogFilter (or PastLogFilter) the two reads raise [ValueError]
    when the filter is running; otherwise each makes one fetch, of the
    changes or of the full log, returns the entries that pass the validity
    hook, formatted and in source order, and leaves the object as it is. *)
Lemma LogFilter_reads o r t :
  is_LogFilter (cls o) = true ->
  (is_running o = true ->
   (exists msg, get_new_entries (mkState o r t)
                = (Raise (ValueError msg), mkState o r t))
   /\ (exists msg, get_all_entries (mkState o r t)
                   = (Raise (ValueError msg), mkState o r t)))
  /\ (is_running o = false ->
      get_new_entries (mkState o r t)
      = (Ok (read_result o (hd [] r)),
         mkState o (tl r)
           (t ++ GetFilterChanges eth (filter_id o) :: read_events o (hd [] r)))
      /\ get_all_entries (mkState o r t)
         = (Ok (read_result o (hd [] r)),
            mkState o (tl r)
              (t ++ GetFilterLogs eth (filter_id o) :: read_events o (hd [] r)))).
Proof.
  intros Hk.
  unfold get_new_entries, get_all_entries, _ensure_not_running,
    LogFilter_ensure_not_running, getFilterChanges, getFilterLogs,
    _filter_valid_entries, _format_log_entries, LogFilter_format_log_entries.
  run. rewrite Hk. simpl. split; intros Hrun; rewrite Hrun; simpl.
  - split; eexists; reflexivity.
  - rewrite Hk. rewrite !comprehension_run. by rewrite <- !app_assoc.
Qed.

(** On the classes that do not derive from LogFilter the two reads find
    no [_ensure_not_running] and stop there, whatever the state. *)
Lemma base_class_reads s :
  is_LogFilter (cls (self s)) = false ->
  get_new_entries s = (Raise (AttributeError "_ensure_not_running"), s)
  /\ get_all_entries s = (Raise (AttributeError "_ensure_not_running"), s).
Proof.
  destruct s as [o r t]; simpl. intros Hk.
  unfold get_new_entries, get_all_entries, _ensure_not_running. run.
  by rewrite Hk.
Qed.

(** C3 (where the code departs from it): on an Idle BlockFilter, where
    the claim has both reads fetch and return, each raises
    [AttributeError] before any fetch. *)
Theorem BlockFilter_reads_raise :
  let s := init BlockFilter 7 [[e1]] in
  state_of (self s) = Idle
  /\ get_new_entries s = (Raise (AttributeError "_ensure_not_running"), s)
  /\ get_all_entries s = (Raise (AttributeError "_ensure_not_running"), s).
Proof. repeat split. Qed.

(** *** The two flags *)

Lemma consistent_init k fid replies : consistent (self (init k fid replies)).
Proof. by intros H. Qed.

Lemma consistent_step s s' :
  step s s' -> consistent (self s) -> consistent (self s').
Proof.
  intros [a m s0 Hm] Hc.
  rewrite (exec_effect _ _ _ s0 Hm).
  pose proof (effect_flags a (self s0)) as Hf.
  revert Hf. generalize (effect a (self s0)). intros o' Hf.
  unfold consistent in *.
  destruct a; try (injection Hf as -> ->; exact Hc).
  - by injection Hf as -> ->.
  - destruct (stopped (self s0)); injection Hf as -> ->; [by auto|done].
  - by injection Hf as -> ->.
Qed.

(** Every state an engine can reach has consistent flags, so that a
    filter is Running exactly when its [running] attribute is true. *)
Lemma reachable_running k fid replies s :
  rtc step (init k fid replies) s ->
  (state_of (self s) = Running <-> is_running (self s) = true).
Proof.
  intros Hrtc.
  assert (Hc : consistent (self s)).
  { revert s Hrtc. apply (rtc_ind_r (fun s => consistent (self s))).
    - apply consistent_init.
    - intros s1 s2 _ Hstep IH. by apply (consistent_step s1). }
  unfold state_of, consistent in *.
  destruct (stopped (self s)), (is_running (self s)); intuition congruence.
Qed.

End EngineFacts.


(* ===================================================================== *)
(** ** Properties of the data matcher *)
(* ===================================================================== *)

Module MatcherFacts.
Import Engine Claims EngineFacts.

Local Abbreviation chars := list_ascii_of_string.

(** *** Text *)

Lemma chars_append (a b : string) : chars (a +:+ b) = chars a ++ chars b.
Proof. induction a as [|c a IH]; simpl; [done|]. by rewrite IH. Qed.

Lemma append_empty_r (a : string) : a +:+ "" = a.
Proof.
  induction a as [|c a IH]; [done|].
  change (String c (a +:+ "") = String c a). by f_equal.
Qed.

Lemma concat_empty_cons (x : string) (l : list string) :
  String.concat "" (x :: l) = x +:+ String.concat "" l.
Proof.
  destruct l as [|y l]; [symmetry; apply append_empty_r|reflexivity].
Qed.

Lemma chars_concat_empty (l : list string) :
  chars (String.concat "" l) = flat_map chars l.
Proof.
  induction l as [|x l IH]; [done|].
  rewrite concat_empty_cons, chars_append, IH. reflexivity.
Qed.

Lemma chars_concat_bar (x y : string) (l : list string) :
  chars (String.concat "|" (x :: y :: l))
  = chars x ++ "|"%char :: chars (String.concat "|" (y :: l)).
Proof.
  change (String.concat "|" (x :: y :: l))
    with (x +:+ "|" +:+ String.concat "|" (y :: l)).
  by rewrite !chars_append.
Qed.

(** *** Parsing the pattern of a data filter set *)

Lemma plain_no_brace c s : plain c = true -> no_brace (c :: s) = true.
Proof.
  destruct c as [[] [] [] [] [] [] [] []]; simpl; done.
Qed.

(** Between atoms, an atom that is not followed by a quantifier is the
    same as the atom already put on the branch. *)
Lemma parse_commit cs s done cur :
  no_brace s = true ->
  Re.parse s done cur (Re.MAtom cs)
  = Re.parse s done (Re.Chars cs 1 :: cur) Re.MTop.
Proof.
  destruct s as [|c s]; [done|].
  destruct c as [[] [] [] [] [] [] [] []]; simpl; done.
Qed.

Lemma parse_lit c s done cur :
  plain c = true -> no_brace s = true ->
  Re.parse (c :: s) done cur Re.MTop = Re.parse s done (lit c :: cur) Re.MTop.
Proof.
  intros Hc Hs. unfold lit. rewrite <- (parse_commit _ _ _ _ Hs).
  destruct c as [[] [] [] [] [] [] [] []]; simpl in *; done.
Qed.

Lemma no_brace_app w s :
  forallb plain w = true -> no_brace s = true -> no_brace (w ++ s) = true.
Proof.
  destruct w as [|c w]; simpl; [done|].
  intros [Hc _]%andb_prop _. by apply (plain_no_brace c (w ++ s)).
Qed.

Lemma parse_lits w s done cur :
  forallb plain w = true -> no_brace s = true ->
  Re.parse (w ++ s) done cur Re.MTop
  = Re.parse s done (rev (map lit w) ++ cur) Re.MTop.
Proof.
  revert cur. induction w as [|c w IH]; intros cur Hw Hs; [done|].
  simpl in Hw. apply andb_prop in Hw as [Hc Hw].
  change ((c :: w) ++ s) with (c :: (w ++ s)).
  rewrite parse_lit by auto using no_brace_app.
  rewrite IH by done. cbn [map rev]. by rewrite <- app_assoc.
Qed.

Lemma parse_wildcard s done cur :
  Re.parse (chars ZERO_32BYTES ++ s) done cur Re.MTop
  = Re.parse s done (Re.Chars hex_set 64 :: cur) Re.MTop.
Proof. reflexivity. Qed.

Lemma no_brace_slot v s :
  plain_slot v = true -> no_brace s = true ->
  no_brace (chars (slot_pattern v) ++ s) = true.
Proof.
  destruct v as [v|]; simpl; [|done]. apply no_brace_app.
Qed.

Lemma parse_slot v s done cur :
  plain_slot v = true -> no_brace s = true ->
  Re.parse (chars (slot_pattern v) ++ s) done cur Re.MTop
  = Re.parse s done (rev (slot_pieces v) ++ cur) Re.MTop.
Proof.
  destruct v as [v|]; simpl.
  - apply parse_lits.
  - intros _ _. apply parse_wildcard.
Qed.

Lemma no_brace_slots t s :
  forallb plain_slot t = true -> no_brace s = true ->
  no_brace (flat_map (fun v => chars (slot_pattern v)) t ++ s) = true.
Proof.
  induction t as [|v t IH]; simpl; [done|].
  intros [Hv Ht]%andb_prop Hs. rewrite <- app_assoc.
  apply no_brace_slot; auto.
Qed.

Lemma parse_slots t s done cur :
  forallb plain_slot t = true -> no_brace s = true ->
  Re.parse (flat_map (fun v => chars (slot_pattern v)) t ++ s) done cur Re.MTop
  = Re.parse s done (rev (flat_map slot_pieces t) ++ cur) Re.MTop.
Proof.
  revert cur. induction t as [|v t IH]; intros cur Ht Hs; [done|].
  simpl in Ht. apply andb_prop in Ht as [Hv Ht].
  cbn [flat_map].
  rewrite <- app_assoc, parse_slot by auto using no_brace_slots.
  rewrite IH by done. by rewrite rev_app_distr, <- app_assoc.
Qed.

Lemma chars_tuple_pattern t :
  chars (tuple_pattern t)
  = "0"%char :: "x"%char :: flat_map (fun v => chars (slot_pattern v)) t.
Proof.
  unfold tuple_pattern. rewrite chars_append, chars_concat_empty.
  simpl. by rewrite flat_map_concat_map, map_map, <- flat_map_concat_map.
Qed.

Lemma parse_tuple t s done cur :
  forallb plain_slot t = true -> no_brace s = true ->
  Re.parse (chars (tuple_pattern t) ++ s) done cur Re.MTop
  = Re.parse s done (rev (tuple_pieces t) ++ cur) Re.MTop.
Proof.
  intros Ht Hs. rewrite chars_tuple_pattern.
  set (body := flat_map (fun v => chars (slot_pattern v)) t).
  change (Re.parse ("0"%char :: "x"%char :: (body ++ s)) done cur Re.MTop
          = Re.parse s done (rev (tuple_pieces t) ++ cur) Re.MTop).
  rewrite parse_lit by done.
  rewrite parse_lit by (try done; by apply no_brace_slots).
  unfold body. rewrite parse_slots by done.
  unfold tuple_pieces. cbn [rev]. by rewrite <- !app_assoc.
Qed.

Lemma parse_later (t : data_filter) (ts : list data_filter) done cur :
  forallb (forallb plain_slot) (t :: ts) = true ->
  Re.parse (chars (String.concat "|" (map tuple_pattern (t :: ts)))
              ++ ["$"%char]) done cur Re.MTop
  = Some (rev done ++ prepend (rev cur) (later_branches t ts)).
Proof.
  revert t done cur. induction ts as [|t' ts IH]; intros t done cur Hp.
  - simpl in Hp. apply andb_prop in Hp as [Ht _].
    cbn [map String.concat]. rewrite parse_tuple by done.
    cbn [Re.parse Re.commit later_branches prepend rev].
    by rewrite rev_app_distr, rev_involutive, <- app_assoc.
  - cbn [forallb] in Hp. apply andb_prop in Hp as [Ht Hp].
    cbn [map]. rewrite chars_concat_bar, <- app_assoc.
    rewrite parse_tuple by done.
    change (("|"%char :: ?l) ++ ?r) with ("|"%char :: (l ++ r)).
    cbn [Re.parse Re.commit].
    change (tuple_pattern t' :: map tuple_pattern ts)
      with (map tuple_pattern (t' :: ts)).
    rewrite (IH t' _ [] Hp).
    cbn [later_branches prepend rev app].
    rewrite rev_app_distr, rev_involutive, <- app_assoc.
    destruct (later_branches t' ts); reflexivity.
Qed.

(** The pattern of a data filter set with plain slots compiles, to the
    branches of its tuples with [^] in front of the first and [$] at the
    end of the last. *)
Lemma compile_data_filter_pattern data_filter_set :
  plain_set data_filter_set = true ->
  Re.compile (data_filter_pattern data_filter_set)
  = Some (pattern_branches data_filter_set).
Proof.
  intros Hp. destruct data_filter_set as [|t ts]; [reflexivity|].
  unfold Re.compile, data_filter_pattern.
  rewrite !chars_append.
  change (chars "^") with ["^"%char]. change (chars "$") with ["$"%char].
  change (["^"%char] ++ ?l) with ("^"%char :: l).
  cbn [Re.parse Re.commit].
  etransitivity; [exact (parse_later t ts [] [Re.Bol] Hp)|].
  unfold pattern_branches, prepend. simpl.
  destruct (later_branches t ts); reflexivity.
Qed.

(** *** Matching the parsed pattern *)

Lemma in_charset_lit c c' : Re.in_charset c' [(c, c)] = Ascii.eqb c c'.
Proof.
  unfold Re.in_charset. cbn [existsb fst snd]. rewrite orb_false_r.
  destruct (Ascii.eqb_spec c c') as [->|Hne].
  - by rewrite Nat.leb_refl.
  - apply andb_false_iff.
    destruct (Nat.leb_spec (nat_of_ascii c) (nat_of_ascii c')) as [H1|H1];
      [|by left].
    destruct (Nat.leb_spec (nat_of_ascii c') (nat_of_ascii c)) as [H2|H2];
      [|by right].
    exfalso. apply Hne.
    rewrite <- (ascii_nat_embedding c), <- (ascii_nat_embedding c').
    f_equal. lia.
Qed.

Lemma in_charset_hex c : Re.in_charset c hex_set = is_hex c.
Proof.
  unfold Re.in_charset, hex_set, is_hex. cbn [existsb fst snd].
  by rewrite orb_false_r.
Qed.

Lemma consume_hex n p : Re.consume hex_set n p = strip_hex n p.
Proof.
  revert p. induction n as [|n IH]; intros p; [done|].
  destruct p as [|c p]; [done|]. cbn [Re.consume strip_hex].
  by rewrite in_charset_hex, IH.
Qed.

(** A run of pieces reads the text the way [strip] does; [b] is what
    follows in the branch. *)
Lemma match_lits w b pos p :
  match strip_literal w p with
  | Some p' =>
      exists pos', Re.match_branch (map lit w ++ b) pos p
                   = Re.match_branch b pos' p'
  | None => Re.match_branch (map lit w ++ b) pos p = false
  end.
Proof.
  revert pos p. induction w as [|c w IH]; intros pos p.
  - by exists pos.
  - cbn [map app strip_literal Re.match_branch lit Re.consume].
    destruct p as [|c' p]; [done|].
    rewrite in_charset_lit. destruct (Ascii.eqb c c'); [|done].
    apply IH.
Qed.

Lemma match_slot v b pos p :
  match strip_slot v p with
  | Some p' =>
      exists pos', Re.match_branch (slot_pieces v ++ b) pos p
                   = Re.match_branch b pos' p'
  | None => Re.match_branch (slot_pieces v ++ b) pos p = false
  end.
Proof.
  destruct v as [v|]; cbn [strip_slot slot_pieces].
  - apply match_lits.
  - cbn [app Re.match_branch]. rewrite consume_hex.
    destruct (strip_hex 64 p); [by eexists|done].
Qed.

Lemma match_slots t b pos p :
  match strip_slots t p with
  | Some p' =>
      exists pos', Re.match_branch (flat_map slot_pieces t ++ b) pos p
                   = Re.match_branch b pos' p'
  | None => Re.match_branch (flat_map slot_pieces t ++ b) pos p = false
  end.
Proof.
  revert pos p. induction t as [|v t IH]; intros pos p.
  - by exists pos.
  - cbn [flat_map strip_slots]. rewrite <- app_assoc.
    pose proof (match_slot v (flat_map slot_pieces t ++ b) pos p) as Hv.
    destruct (strip_slot v p) as [p1|]; [|done].
    destruct Hv as [pos1 ->]. apply IH.
Qed.

Lemma match_tuple t b pos p :
  match strip_tuple t p with
  | Some p' =>
      exists pos', Re.match_branch (tuple_pieces t ++ b) pos p
                   = Re.match_branch b pos' p'
  | None => Re.match_branch (tuple_pieces t ++ b) pos p = false
  end.
Proof.
  unfold strip_tuple, tuple_pieces.
  pose proof (match_lits (chars "0x") (flat_map slot_pieces t ++ b) pos p)
    as H0.
  change (map lit (chars "0x") ++ flat_map slot_pieces t ++ b)
    with ((lit "0" :: lit "x" :: flat_map slot_pieces t) ++ b) in H0.
  destruct (strip_literal (chars "0x") p) as [p1|]; [|done].
  destruct H0 as [pos1 ->]. apply match_slots.
Qed.

Lemma match_tuple_open t pos p :
  Re.match_branch (tuple_pieces t) pos p
  = match strip_tuple t p with Some _ => true | None => false end.
Proof.
  pose proof (match_tuple t [] pos p) as H. rewrite app_nil_r in H.
  destruct (strip_tuple t p); [by destruct H as [? ->]|done].
Qed.

Lemma match_tuple_end t pos p :
  Re.match_branch (tuple_pieces t ++ [Re.Eol]) pos p
  = match strip_tuple t p with Some rest => Re.at_eol rest | None => false end.
Proof.
  pose proof (match_tuple t [Re.Eol] pos p) as H.
  destruct (strip_tuple t p); [|done].
  destruct H as [? ->]. simpl. apply andb_true_r.
Qed.

Lemma matches_later t ts pos p :
  existsb (fun b => Re.match_branch b pos p) (later_branches t ts)
  = pattern_accepts (t :: ts) p.
Proof.
  revert t. induction ts as [|t' ts IH]; intros t.
  - cbn [later_branches existsb pattern_accepts].
    by rewrite match_tuple_end, orb_false_r.
  - cbn [later_branches existsb]. rewrite IH, match_tuple_open.
    change (pattern_accepts (t :: t' :: ts) p)
      with (match strip_tuple t p with
            | Some _ => true
            | None => pattern_accepts (t' :: ts) p
            end).
    by destruct (strip_tuple t p).
Qed.

(** The compiled pattern of a non-empty set accepts what
    [pattern_accepts] says. *)
Lemma matches_pattern_branches t ts payload :
  Re.matches (pattern_branches (t :: ts)) payload
  = pattern_accepts (t :: ts) (chars payload).
Proof.
  unfold Re.matches. rewrite <- (matches_later t ts 0).
  unfold pattern_branches.
  destruct (later_branches t ts) as [|b bs]; reflexivity.
Qed.

(** *** The matcher of the specification *)

Lemma strip_literal_spec w p rest :
  strip_literal w p = Some rest <-> p = w ++ rest.
Proof.
  revert p. induction w as [|c w IH]; intros p; simpl.
  - split; congruence.
  - destruct p as [|c' p]; [done|].
    destruct (Ascii.eqb_spec c c') as [->|Hne].
    + rewrite IH. split; congruence.
    + split; [done|]. intros [= -> _]. done.
Qed.

Lemma strip_hex_spec n p rest :
  strip_hex n p = Some rest
  <-> exists seg, p = seg ++ rest
                  /\ length seg = n /\ forallb is_hex seg = true.
Proof.
  revert p. induction n as [|n IH]; intros p; simpl.
  - split.
    + intros [= ->]. by exists [].
    + intros ([|c seg] & -> & Hl & _); [done|discriminate].
  - destruct p as [|c p].
    + split; [done|]. intros ([|c seg] & Hp & Hl & _); discriminate.
    + destruct (is_hex c) eqn:Hc.
      * rewrite IH. split.
        -- intros (seg & -> & <- & Hh). exists (c :: seg). simpl.
           by rewrite Hc.
        -- intros ([|c' seg] & Hp & Hl & Hh); [discriminate|].
           injection Hp as -> ->. injection Hl as <-.
           simpl in Hh. apply andb_prop in Hh as [_ Hh]. by exists seg.
      * split; [done|].
        intros ([|c' seg] & Hp & Hl & Hh); [discriminate|].
        injection Hp as -> ->. simpl in Hh. by rewrite Hc in Hh.
Qed.

Lemma strip_slot_spec v p rest :
  strip_slot v p = Some rest
  <-> exists seg, slot_denotes v seg /\ p = seg ++ rest.
Proof.
  destruct v as [v|]; cbn [strip_slot slot_denotes].
  - rewrite strip_literal_spec. split.
    + intros ->. by eexists.
    + by intros (seg & -> & ->).
  - rewrite strip_hex_spec. split.
    + intros (seg & -> & Hl & Hh). by exists seg.
    + intros (seg & [Hl Hh] & ->). by exists seg.
Qed.

Lemma strip_slots_spec t p rest :
  strip_slots t p = Some rest
  <-> exists segs, Forall2 slot_denotes t segs /\ p = concat segs ++ rest.
Proof.
  revert p. induction t as [|v t IH]; intros p; simpl.
  - split.
    + intros [= ->]. exists []. by split; [constructor|].
    + intros (segs & Hf & ->). by inversion Hf.
  - split.
    + destruct (strip_slot v p) as [p1|] eqn:Hv; [|done].
      apply strip_slot_spec in Hv as (seg & Hd & ->).
      intros (segs & Hf & ->)%IH.
      exists (seg :: segs). split; [by constructor|].
      simpl. by rewrite <- app_assoc.
    + intros (segs & Hf & ->). inversion Hf as [|? seg ? segs' Hd Hf']; subst.
      assert (Hv : strip_slot v (concat (seg :: segs') ++ rest)
                   = Some (concat segs' ++ rest)).
      { apply strip_slot_spec. exists seg. split; [done|].
        simpl. by rewrite <- app_assoc. }
      rewrite Hv. apply IH. by exists segs'.
Qed.

(** The executable matcher says what the specification says. *)
Lemma tuple_matches_denotes t payload :
  tuple_matches t payload = true <-> tuple_denotes t payload.
Proof.
  unfold tuple_matches, tuple_denotes, strip_tuple. split.
  - destruct (strip_literal (chars "0x") (chars payload)) as [p1|] eqn:H0;
      [|done].
    apply strip_literal_spec in H0.
    destruct (strip_slots t p1) as [[|c rest]|] eqn:Ht; try done.
    apply strip_slots_spec in Ht as (segs & Hf & ->). intros _.
    exists segs. split; [done|]. by rewrite H0, app_nil_r.
  - intros (segs & Hf & Hp).
    assert (H0 : strip_literal (chars "0x") (chars payload) = Some (concat segs))
      by by apply strip_literal_spec.
    rewrite H0.
    assert (Ht : strip_slots t (concat segs) = Some []).
    { apply strip_slots_spec. exists segs. by rewrite app_nil_r. }
    by rewrite Ht.
Qed.

Lemma spec_accepts_denotes data_filter_set payload :
  spec_accepts data_filter_set payload = true
  <-> exists t, In t data_filter_set /\ tuple_denotes t payload.
Proof.
  unfold spec_accepts. rewrite existsb_exists.
  split; intros (t & Hin & Ht); exists t; split; try done;
    by apply tuple_matches_denotes.
Qed.

(** *** set_data_filters and is_valid_entry *)

Lemma any_tuple_all_empty data_filter_set :
  any_tuple data_filter_set = negb (all_empty data_filter_set).
Proof.
  induction data_filter_set as [|t ts IH]; [done|].
  cbn [any_tuple all_empty existsb forallb] in *.
  rewrite negb_andb. fold (any_tuple ts). rewrite IH. by destruct t.
Qed.

(** On a set with plain slots [set_data_filters] returns, and compiles
    the pattern when some tuple is not empty. *)
Lemma set_data_filters_run data_filter_set o r t :
  plain_set data_filter_set = true ->
  exists o',
    set_data_filters data_filter_set (mkState o r t) = (Ok tt, mkState o' r t)
    /\ cls o' = cls o
    /\ data_filter_set_regex o'
       = if any_tuple data_filter_set
         then Some (pattern_branches data_filter_set)
         else data_filter_set_regex o.
Proof.
  intros Hp. unfold set_data_filters, construct_data_filter_regex. run.
  rewrite (compile_data_filter_pattern _ Hp).
  destruct (any_tuple data_filter_set); eexists; by repeat split.
Qed.

(** What a LogFilter built on a set with plain slots lets through. *)
Lemma LogFilter_accepts data_filter_set o r t :
  plain_set data_filter_set = true ->
  any_tuple data_filter_set = true ->
  is_LogFilter (cls o) = true ->
  exists o',
    set_data_filters data_filter_set (mkState o r t) = (Ok tt, mkState o' r t)
    /\ forall payload,
        is_valid_entry_value o' (entry_of payload)
        = pattern_accepts data_filter_set (chars payload).
Proof.
  intros Hp Hany Hk.
  destruct (set_data_filters_run data_filter_set o r t Hp)
    as (o' & Hrun & Hcls & Hre).
  exists o'. split; [exact Hrun|]. intros payload.
  unfold is_valid_entry_value, LogFilter_is_valid_entry.
  rewrite Hcls, Hk, Hre, Hany.
  destruct data_filter_set as [|t0 ts]; [discriminate|].
  apply matches_pattern_branches.
Qed.

(** A payload that some tuple matches fully is never turned away. *)
Lemma spec_accepts_pattern_accepts data_filter_set payload :
  spec_accepts data_filter_set payload = true ->
  pattern_accepts data_filter_set (chars payload) = true.
Proof.
  unfold spec_accepts, tuple_matches.
  induction data_filter_set as [|t ts IH]; [done|].
  cbn [existsb]. intros [Ht|Hts]%orb_prop.
  - destruct ts; cbn [pattern_accepts];
      destruct (strip_tuple t (chars payload)) as [[|]|]; done.
  - specialize (IH Hts). destruct ts as [|t' ts]; [done|].
    change (pattern_accepts (t :: t' :: ts) (chars payload))
      with (match strip_tuple t (chars payload) with
            | Some _ => true
            | None => pattern_accepts (t' :: ts) (chars payload)
            end).
    by destruct (strip_tuple t (chars payload)).
Qed.

(** With a single tuple the two differ by a newline at the end only. *)
Lemma single_tuple_accepts t payload :
  pattern_accepts [t] (chars payload) = true
  <-> tuple_matches t payload = true
      \/ strip_tuple t (chars payload) = Some [ascii_of_nat 10].
Proof.
  unfold tuple_matches. cbn [pattern_accepts].
  destruct (strip_tuple t (chars payload)) as [[|c [|c' rest]]|]; simpl.
  - by split; [left|].
  - split.
    + intros Hc. right. apply Nat.eqb_eq in Hc.
      by rewrite <- Hc, ascii_nat_embedding.
    + intros [|[= ->]]; done.
  - split; [done|by intros [|]].
  - split; [done|by intros [|]].
Qed.

(** C8: [set_data_filters] on a filter without a matcher leaves the
    matcher absent exactly when every tuple of the set is empty (the empty
    set included), it returns on every set with plain slots, and a filter
    without a matcher lets every entry through. *)
Theorem absent_matcher s data_filter_set :
  data_filter_set_regex (self s) = None ->
  (forall s',
      set_data_filters data_filter_set s = (Ok tt, s') ->
      (data_filter_set_regex (self s') = None
       <-> all_empty data_filter_set = true))
  /\ (plain_set data_filter_set = true ->
      exists s', set_data_filters data_filter_set s = (Ok tt, s'))
  /\ (forall entry, is_valid_entry_value (self s) entry = true).
Proof.
  destruct s as [o r t]; simpl. intros Hnone.
  split; [|split].
  - intros s'. unfold set_data_filters, construct_data_filter_regex. run.
    rewrite any_tuple_all_empty.
    destruct (all_empty data_filter_set); simpl.
    + intros [= <-]. simpl. by split.
    + destruct (Re.compile _); [|discriminate].
      intros [= <-]. simpl. by split.
  - intros Hp.
    destruct (set_data_filters_run data_filter_set o r t Hp) as (o' & H & _).
    eauto.
  - intros entry. unfold is_valid_entry_value, LogFilter_is_valid_entry.
    rewrite Hnone. by destruct (is_LogFilter (cls o)).
Qed.

(** A new LogFilter given two empty tuples has no matcher and lets the
    sample entry through. *)
Lemma absent_matcher_witness :
  exists s',
    set_data_filters [[]; []] (init LogFilter 7 []) = (Ok tt, s')
    /\ data_filter_set_regex (self s') = None
    /\ is_valid_entry_value (self (init LogFilter 7 [])) e1 = true.
Proof.
  destruct (absent_matcher (init LogFilter 7 []) [[]; []] eq_refl)
    as (Hiff & Htotal & Hall).
  destruct (Htotal eq_refl) as [s' Hrun].
  exists s'. split; [exact Hrun|].
  split; [by apply (Hiff s' Hrun)|apply Hall].
Defined.

(** C1 (where the code departs from it): with the two tuples [aa..] and
    [bb..] the compiled matcher lets through a payload of two words that
    starts with [aa..], which no tuple matches fully: in the pattern
    [^0xaa..|0xbb..$] the [$] belongs to the last alternative only. *)
Theorem matcher_accepts_unmatched_payload :
  let data_filter_set :=
    [[Some ("0x" +:+ word "aa")]; [Some ("0x" +:+ word "bb")]] in
  let payload := "0x" +:+ word "aa" +:+ word "00" in
  exists s',
    set_data_filters data_filter_set (init LogFilter 7 []) = (Ok tt, s')
    /\ is_valid_entry_value (self s') (entry_of payload) = true
    /\ spec_accepts data_filter_set payload = false.
Proof.
  eexists. split; [vm_compute; reflexivity|]. split; vm_compute; reflexivity.
Qed.

End MatcherFacts.

(* ===================================================================== *)
(** ** More on construct_event_filter_params *)
(* ===================================================================== *)

Module ParamsMore.
Import Params Claims ParamsFacts.

Section Builder.
Context {event_abi argument_filters : Type}.
Variable topic_enc : event_abi -> option argument_filters -> list value.
Variable data_enc : event_abi -> option argument_filters -> data_filter_set_t.

Lemma block_entry_same key v (fp : gmap string value) :
  block_entry key v fp !! key
  = match v with VNone => fp !! key | _ => Some v end.
Proof.
  unfold block_entry. destruct v; simpl; by rewrite ?lookup_insert_eq.
Qed.

Lemma address_entry_other address c (fp fp' : gmap string value) k :
  k <> "address" ->
  address_entry address c fp = Ok fp' -> fp' !! k = fp !! k.
Proof.
  intros Hk. unfold address_entry.
  destruct (truthy address && truthy c).
  - destruct address; intros [= <-]; by rewrite lookup_insert_ne.
  - destruct (truthy address); [intros [= <-]; by rewrite lookup_insert_ne|].
    destruct (truthy c); intros [= <-]; [by rewrite lookup_insert_ne|done].
Qed.

(** X1: [fromBlock] and [toBlock] are stored exactly when they are not
    [None], and then as they were passed: a block number 0, false in
    Python's sense, is stored all the same. *)
Theorem block_range_stored_when_not_None abi c af topics fb tb address :
  address_unsupported address c = false ->
  exists d fp,
    construct_event_filter_params topic_enc data_enc abi c af topics fb tb
      address = Ok (d, fp)
    /\ (fb = VNone -> fp !! "fromBlock" = None)
    /\ (fb <> VNone -> fp !! "fromBlock" = Some fb)
    /\ (tb = VNone -> fp !! "toBlock" = None)
    /\ (tb <> VNone -> fp !! "toBlock" = Some tb).
Proof.
  intros Ha.
  destruct (address_entry_ok address c
              (<["topics" := topics_entry (topic_set topic_enc abi af topics)]> ∅)
              Ha) as [fp0 Hfp0].
  unfold construct_event_filter_params. rewrite Hfp0.
  eexists _, _. split; [reflexivity|].
  assert (Hfrom : fp0 !! "fromBlock" = None).
  { rewrite (address_entry_other _ _ _ _ "fromBlock" ltac:(done) Hfp0).
    by rewrite lookup_insert_ne. }
  assert (Hto : fp0 !! "toBlock" = None).
  { rewrite (address_entry_other _ _ _ _ "toBlock" ltac:(done) Hfp0).
    by rewrite lookup_insert_ne. }
  rewrite block_entry_other by done. rewrite !block_entry_same.
  rewrite block_entry_other by done. rewrite Hfrom, Hto.
  repeat split.
  - by intros ->.
  - by destruct fb.
  - by intros ->.
  - by destruct tb.
Qed.

(** X2: whatever the arguments, a FilterSpec that is returned holds no key
    besides topics, address, fromBlock and toBlock, and it always holds
    topics, as a sequence (a list, or the tuple that was passed). *)
Theorem filter_params_keys abi c af topics fb tb address d fp :
  construct_event_filter_params topic_enc data_enc abi c af topics fb tb
    address = Ok (d, fp) ->
  (forall k, is_Some (fp !! k) -> In k filter_spec_keys)
  /\ (exists v, fp !! "topics" = Some v /\ is_list_like v = true).
Proof.
  unfold construct_event_filter_params.
  destruct (address_entry address c _) as [fp0|e] eqn:Ha; [|discriminate].
  intros [= _ <-]. split.
  - intros k Hk. unfold filter_spec_keys. simpl.
    destruct (decide (k = "toBlock")) as [->|Hto]; [tauto|].
    destruct (decide (k = "fromBlock")) as [->|Hfrom]; [tauto|].
    destruct (decide (k = "address")) as [->|Haddr]; [tauto|].
    destruct (decide (k = "topics")) as [->|Htop]; [tauto|].
    exfalso. rewrite !block_entry_other in Hk by done.
    rewrite (address_entry_other _ _ _ _ k Haddr Ha) in Hk.
    rewrite lookup_insert_ne, lookup_empty in Hk by done.
    by destruct Hk.
  - rewrite !block_entry_other by done.
    rewrite (address_entry_topics _ _ _ _ Ha), lookup_insert_eq.
    unfold topics_entry.
    destruct (topic_set topic_enc abi af topics) as [|t0 [|t1 ts]]; eauto.
    destruct (is_list_like t0) eqn:Hl; eauto.
Qed.

(** X3: the builder fails exactly when both addresses are given (true in
    Python's sense) and [address] is neither a list nor a string. When
    [address] is then not a sequence at all it raises [ValueError] naming
    the type of [address]; when it is a sequence that is not a list (a
    tuple) it raises the [TypeError] of adding a list to it. In every
    other case it returns, and the data filter set it returns is the
    encoder's, whatever the topics, addresses and block range. *)
Theorem build_fails_on_unsupported_address_only abi c af topics fb tb address :
  (address_unsupported address c = true ->
   (is_list_like address = false ->
    construct_event_filter_params topic_enc data_enc abi c af topics fb tb
      address
    = Raise (ValueError ("Unsupported type for `address` parameter: "
                         +:+ type_repr address)))
   /\ (is_list_like address = true ->
       construct_event_filter_params topic_enc data_enc abi c af topics fb tb
         address
       = Raise (TypeError tuple_plus_list_message)))
  /\ (address_unsupported address c = false ->
      exists fp,
        construct_event_filter_params topic_enc data_enc abi c af topics fb tb
          address = Ok (data_enc abi af, fp)).
Proof.
  split; intros Ha.
  - unfold address_unsupported in Ha.
    split; intros Hl; apply build_raise; unfold address_entry;
      destruct (truthy address), (truthy c), address; simpl in *;
        try discriminate; reflexivity.
  - destruct (address_entry_ok address c
                (<["topics" := topics_entry (topic_set topic_enc abi af topics)]> ∅)
                Ha) as [fp0 Hfp0].
    destruct (build_ok topic_enc data_enc abi c af topics fb tb address fp0 Hfp0)
      as (fp & Hb & _). eauto.
Qed.

End Builder.

(** A range from block 0, with no upper end. *)
Lemma block_range_stored_when_not_None_witness :
  exists d fp,
    construct_event_filter_params sample_topic_set sample_data_set tt
      (VStr "0xB") None VNone (VInt 0) VNone VNone = Ok (d, fp)
    /\ fp !! "fromBlock" = Some (VInt 0)
    /\ fp !! "toBlock" = None.
Proof.
  destruct (block_range_stored_when_not_None sample_topic_set sample_data_set
              tt (VStr "0xB") None VNone (VInt 0) VNone VNone eq_refl)
    as (d & fp & Hb & _ & Hfrom & Hto & _).
  exists d, fp. split; [exact Hb|]. split; [by apply Hfrom|by apply Hto].
Defined.

(** A tuple of topics with nothing from the encoder: stored as it is. *)
Lemma filter_params_keys_witness :
  exists d fp,
    construct_event_filter_params (fun (_ : unit) (_ : option unit) => [])
      sample_data_set tt (VStr "0xB") None (VTuple [VStr "0xT1"]) (VInt 0)
      VNone VNone = Ok (d, fp)
    /\ (forall k, is_Some (fp !! k) -> In k filter_spec_keys)
    /\ (exists v, fp !! "topics" = Some v /\ is_list_like v = true).
Proof.
  eexists _, _. split; [reflexivity|].
  exact (filter_params_keys (fun (_ : unit) (_ : option unit) => [])
           sample_data_set tt (VStr "0xB") None (VTuple [VStr "0xT1"])
           (VInt 0) VNone VNone _ _ eq_refl).
Defined.

(** The address 42 of the specification's example, and a tuple. *)
Lemma build_fails_on_unsupported_address_only_witness :
  construct_event_filter_params sample_topic_set sample_data_set tt
    (VStr "0xB") None VNone VNone VNone (VInt 42)
  = Raise (ValueError "Unsupported type for `address` parameter: <class 'int'>")
  /\ construct_event_filter_params sample_topic_set sample_data_set tt
       (VStr "0xB") None VNone VNone VNone (VTuple [VStr "0xA"])
     = Raise (TypeError tuple_plus_list_message).
Proof.
  split.
  - exact (proj1 (proj1 (build_fails_on_unsupported_address_only
                           sample_topic_set sample_data_set tt (VStr "0xB")
                           None VNone VNone VNone (VInt 42)) eq_refl) eq_refl).
  - exact (proj2 (proj1 (build_fails_on_unsupported_address_only
                           sample_topic_set sample_data_set tt (VStr "0xB")
                           None VNone VNone VNone (VTuple [VStr "0xA"]))
                    eq_refl) eq_refl).
Defined.

End ParamsMore.

(* ===================================================================== *)
(** ** More on the filter classes *)
(* ===================================================================== *)

Module EngineMore.
Import Engine Claims EngineFacts.

(** *** Helpers *)

Lemma stop_watching_run timeout o r t :
  stop_watching timeout (mkState o r t)
  = (Ok tt,
     mkState (set_stopped true (set_running false o)) r
       (t ++ [Warn "stop_watching";
              UninstallFilter (poll_namespace (cls o)) (filter_id o);
              Join timeout])).
Proof.
  unfold stop_watching, _warn_async_deprecated, uninstallFilter, join. run.
  by rewrite <- !app_assoc.
Qed.

Lemma run_enter_stopped o r t :
  stopped o = true ->
  run_enter (mkState o r t)
  = (Raise (ValueError (restart_message (cls o))), mkState o r t).
Proof. intros Hs. unfold run_enter. run. by rewrite Hs. Qed.

Lemma run_enter_fresh o r t :
  stopped o = false ->
  run_enter (mkState o r t) = (Ok tt, mkState (set_running true o) r t).
Proof. intros Hs. unfold run_enter. run. by rewrite Hs. Qed.

Lemma rtc_stopped s s' :
  rtc step s s' -> stopped (self s) = true -> stopped (self s') = true.
Proof.
  induction 1 as [s|s s1 s' Hstep _ IH]; [done|].
  intros Hs. apply IH.
  destruct Hstep as [a m s0 Hm].
  rewrite (exec_effect _ _ _ s0 Hm).
  pose proof (effect_flags a (self s0)) as Hf. rewrite Hs in Hf.
  revert Hf. generalize (effect a (self s0)). intros o' Hf.
  destruct a; by injection Hf.
Qed.

Lemma count_app p evs1 evs2 :
  count p (evs1 ++ evs2) = (count p evs1 + count p evs2)%nat.
Proof. unfold count. by rewrite List.filter_app, length_app. Qed.

Lemma count_dispatch_fetch o batch : count is_fetch (dispatch_events o batch) = 0%nat.
Proof. unfold count. by rewrite dispatch_no_fetch. Qed.

Lemma count_dispatch_sleep o batch : count is_sleep (dispatch_events o batch) = 0%nat.
Proof. unfold count. by rewrite dispatch_no_sleep. Qed.

Lemma dispatch_no_remote o batch :
  List.filter is_remote (dispatch_events o batch) = [].
Proof.
  rewrite filter_dispatch_events.
  apply flat_map_nil; intros e. apply flat_map_nil; intros cb.
  unfold pair_events. by destruct (is_valid_entry_value o e).
Qed.

Lemma read_events_no_remote o entries :
  List.filter is_remote (read_events o entries) = [].
Proof.
  unfold read_events. rewrite filter_flat_map.
  apply flat_map_nil; intros e. by destruct (is_valid_entry_value o e).
Qed.

Lemma sleep_event_is_sleep o :
  is_sleep (sleep_event o) = true /\ is_fetch (sleep_event o) = false
  /\ is_remote (sleep_event o) = false.
Proof. unfold sleep_event. by destruct (poll_interval o). Qed.

Lemma count_pass o batch :
  count is_fetch (pass_events o batch) = 1%nat
  /\ count is_sleep (pass_events o batch) = 1%nat.
Proof.
  unfold pass_events.
  change (GetFilterChanges ?ns ?f :: ?l) with ([GetFilterChanges ns f] ++ l).
  rewrite !count_app, count_dispatch_fetch, count_dispatch_sleep.
  destruct (sleep_event_is_sleep o) as (Hs & Hf & _).
  unfold count. simpl. by rewrite Hs, Hf.
Qed.

Lemma drop_tail {A} n (r : list A) : drop n (tail r) = drop (S n) r.
Proof. destruct r; simpl; [by rewrite drop_nil|done]. Qed.

(** [fuel] passes of the loop on a running filter. *)
Lemma loop_run fuel o r t :
  is_running o = true ->
  exists evs,
    loop fuel (mkState o r t) = (Ok false, mkState o (drop fuel r) (t ++ evs))
    /\ count is_fetch evs = fuel /\ count is_sleep evs = fuel.
Proof.
  intros Hrun. revert r t. induction fuel as [|fuel IH]; intros r t.
  - exists []. simpl. by rewrite app_nil_r, drop_0.
  - cbn [loop]. unfold mbind, M_bind, bind.
    rewrite (loop_pass_run _ _ _ Hrun).
    destruct (IH (tail r) (t ++ pass_events o (hd [] r))) as (evs & Hl & Hf & Hs).
    unfold pass_events in Hl. rewrite Hl.
    exists (pass_events o (hd [] r) ++ evs).
    rewrite drop_tail, <- app_assoc. split; [done|].
    rewrite !count_app, Hf, Hs.
    by destruct (count_pass o (hd [] r)) as [-> ->].
Qed.

(** *** stop_watching and the restart guard *)

(** X4: [stop_watching] never fails, from any state (a stopped one
    included). It leaves the filter Stopped with its registry as it was,
    makes exactly one call to the remote source, the release of the filter
    on the namespace of the class, and then joins the task with the
    timeout it was given. *)
Theorem stop_watching_releases_once s timeout :
  exists s' evs,
    stop_watching timeout s = (Ok tt, s')
    /\ trace s' = trace s ++ evs
    /\ state_of (self s') = Stopped
    /\ callbacks (self s') = callbacks (self s)
    /\ remote s' = remote s
    /\ List.filter is_remote evs
       = [UninstallFilter (match cls (self s) with ShhFilter => shh | _ => eth end)
                          (filter_id (self s))]
    /\ last evs = Some (Join timeout).
Proof.
  destruct s as [o r t]. rewrite stop_watching_run.
  eexists _, _. split; [reflexivity|]. split; [reflexivity|].
  repeat split.
Qed.

(** X5: once a filter is Stopped nothing brings it back, whatever is done
    to it afterwards: [watch] raises [ValueError] and registers nothing, and
    both [_run] methods raise [ValueError] before touching the remote
    source. *)
Theorem stopped_filter_is_never_restarted s s' :
  state_of (self s) = Stopped ->
  rtc step s s' ->
  (forall cbs, exists msg s'',
      watch cbs s' = (Raise (ValueError msg), s'')
      /\ self s'' = self s' /\ remote s'' = remote s')
  /\ (forall fuel,
        Filter_run fuel s'
        = (Raise (ValueError (restart_message (cls (self s')))), s'))
  /\ PastLogFilter_run s'
     = (Raise (ValueError (restart_message (cls (self s')))), s').
Proof.
  intros Hst Hrtc.
  assert (Hs : stopped (self s') = true).
  { apply (rtc_stopped _ _ Hrtc). unfold state_of in Hst.
    destruct (stopped (self s)); [done|].
    by destruct (is_running (self s)). }
  destruct s' as [o r t]; simpl in *. split; [|split].
  - intros cbs. unfold watch, _warn_async_deprecated. run. rewrite Hs.
    by eexists _, _.
  - intros fuel. unfold Filter_run, mbind, M_bind, bind.
    by rewrite (run_enter_stopped _ _ _ Hs).
  - unfold PastLogFilter_run, mbind, M_bind, bind.
    by rewrite (run_enter_stopped _ _ _ Hs).
Qed.

(** A LogFilter that is stopped and then read. *)
Lemma stopped_filter_is_never_restarted_witness :
  let s := run_actions [a_stop_watching 0] (init LogFilter 7 [[e1]]) in
  let s' := run_actions [a_get_new_entries] s in
  exists msg s'', watch [c1] s' = (Raise (ValueError msg), s'').
Proof.
  intros s s'.
  assert (Hstep : step s s') by exact (step_exec a_get_new_entries _ s eq_refl).
  destruct (stopped_filter_is_never_restarted s s' eq_refl
              (rtc_once _ _ Hstep)) as (Hwatch & _).
  destruct (Hwatch [c1]) as (msg & s'' & Hw & _). by exists msg, s''.
Defined.

(** *** The live loop *)

(** X6: the passes of the live loop do not clear [running] themselves. As
    long as every fetch, hook and callback returns and neither a callback
    nor another task touches the filter (the conditions under which this
    file models a pass), [_run] entered on a filter that is not stopped
    makes as many passes as it is given time for, each with one fetch and
    one sleep and each taking the next batch of the remote source, and the
    filter is still Running afterwards. *)
Theorem live_loop_keeps_polling s fuel :
  stopped (self s) = false ->
  exists s' evs,
    Filter_run fuel s = (Ok false, s')
    /\ trace s' = trace s ++ evs
    /\ state_of (self s') = Running
    /\ count is_fetch evs = fuel
    /\ count is_sleep evs = fuel
    /\ remote s' = drop fuel (remote s).
Proof.
  destruct s as [o r t]; simpl. intros Hs.
  unfold Filter_run, mbind, M_bind, bind.
  rewrite (run_enter_fresh _ _ _ Hs).
  destruct (loop_run fuel (set_running true o) r t eq_refl)
    as (evs & Hl & Hf & Hsl).
  rewrite Hl. exists (mkState (set_running true o) (drop fuel r) (t ++ evs)), evs.
  repeat split; try done. unfold state_of. simpl. by rewrite Hs.
Qed.

Lemma live_loop_keeps_polling_witness :
  exists s' evs,
    Filter_run 3 (init Filter 7 [[e1]; []; [e2]]) = (Ok false, s')
    /\ count is_fetch evs = 3%nat
    /\ remote s' = [].
Proof.
  destruct (live_loop_keeps_polling (init Filter 7 [[e1]; []; [e2]]) 3 eq_refl)
    as (s' & evs & Hrun & _ & _ & Hf & _ & Hr).
  by exists s', evs.
Defined.

(** X7: after [stop_watching] the loop is left at its next test, without
    another fetch, dispatch or sleep. *)
Theorem loop_leaves_after_stop s timeout fuel :
  let s1 := snd (stop_watching timeout s) in
  loop (S fuel) s1 = (Ok true, s1).
Proof.
  destruct s as [o r t]. rewrite stop_watching_run. cbn [snd loop].
  unfold mbind, M_bind, bind. by rewrite loop_pass_idle.
Qed.

(** X8: one pass of the loop makes exactly one call to the remote source,
    a fetch of the changes on the shh namespace for a ShhFilter and on the
    eth namespace for every other class, and ends with exactly one sleep,
    of [poll_interval] when it is set (0 included) and of a random length
    otherwise. *)
Theorem loop_pass_one_fetch_one_sleep s :
  is_running (self s) = true ->
  exists s' evs,
    loop_pass s = (Ok true, s')
    /\ trace s' = trace s ++ evs
    /\ List.filter is_remote evs
       = [GetFilterChanges
            (match cls (self s) with ShhFilter => shh | _ => eth end)
            (filter_id (self s))]
    /\ List.filter is_sleep evs
       = [match poll_interval (self s) with
          | Some interval => Sleep interval
          | None => SleepRandom
          end]
    /\ last evs = head (List.filter is_sleep evs).
Proof.
  destruct s as [o r t]; simpl. intros Hrun.
  rewrite (loop_pass_run _ _ _ Hrun).
  eexists _, _. split; [reflexivity|]. split; [reflexivity|].
  change (GetFilterChanges ?ns ?f :: ?l) with ([GetFilterChanges ns f] ++ l).
  rewrite !List.filter_app, dispatch_no_remote, dispatch_no_sleep.
  destruct (sleep_event_is_sleep o) as (Hsl & _ & Hre).
  cbn [List.filter is_remote is_sleep app]. rewrite Hsl, Hre.
  split; [by destruct (cls o)|]. split; [done|].
  rewrite app_comm_cons, last_snoc. reflexivity.
Qed.

Lemma loop_pass_one_fetch_one_sleep_witness :
  exists s' evs,
    loop_pass live_sample = (Ok true, s')
    /\ trace s' = trace live_sample ++ evs
    /\ List.filter is_remote evs = [GetFilterChanges eth 7]
    /\ List.filter is_sleep evs = [SleepRandom].
Proof.
  destruct (loop_pass_one_fetch_one_sleep live_sample eq_refl)
    as (s' & evs & Hrun & Htrace & Hre & Hsl & _).
  by exists s', evs.
Defined.

(** *** Synchronous reads of a LogFilter *)

Lemma hooks_ignore_flags b c o :
  is_valid_entry_value (set_stopped b (set_running c o)) = is_valid_entry_value o
  /\ format_entry_value (set_stopped b (set_running c o)) = format_entry_value o.
Proof. by split. Qed.

(** X9: on a LogFilter or PastLogFilter whose flags agree, the two reads
    raise [ValueError] exactly when the filter is Running, and then touch
    nothing; otherwise each makes exactly one call to the remote source (the
    changes for [get_new_entries], the full log for [get_all_entries]),
    returns the entries that pass the validity hook, formatted and in source
    order, and leaves the object as it is. *)
Theorem LogFilter_reads_by_state s :
  is_LogFilter (cls (self s)) = true ->
  consistent (self s) ->
  (state_of (self s) = Running ->
   (exists msg, get_new_entries s = (Raise (ValueError msg), s))
   /\ (exists msg, get_all_entries s = (Raise (ValueError msg), s)))
  /\ (state_of (self s) <> Running ->
      (exists s' evs,
          get_new_entries s
          = (Ok (read_result (self s) (hd [] (remote s))), s')
          /\ self s' = self s
          /\ trace s' = trace s ++ evs
          /\ List.filter is_remote evs
             = [GetFilterChanges eth (filter_id (self s))])
      /\ (exists s' evs,
             get_all_entries s
             = (Ok (read_result (self s) (hd [] (remote s))), s')
             /\ self s' = self s
             /\ trace s' = trace s ++ evs
             /\ List.filter is_remote evs
                = [GetFilterLogs eth (filter_id (self s))])).
Proof.
  destruct s as [o r t]; simpl. intros Hk Hc.
  destruct (LogFilter_reads o r t Hk) as [Hrun Hidle].
  unfold state_of, consistent in *. split.
  - intros Hst. apply Hrun.
    destruct (stopped o); [done|]. by destruct (is_running o).
  - intros Hst.
    assert (Hr : is_running o = false).
    { destruct (stopped o); [by apply Hc|]. by destruct (is_running o). }
    destruct (Hidle Hr) as [-> ->].
    split; eexists _, _; (split; [reflexivity|]); (split; [reflexivity|]);
      (split; [reflexivity|]); simpl; by rewrite read_events_no_remote.
Qed.

Lemma LogFilter_reads_by_state_witness :
  exists s' evs,
    get_new_entries (init LogFilter 7 [[e1; e2]]) = (Ok [e1; e2], s')
    /\ trace s' = evs
    /\ List.filter is_remote evs = [GetFilterChanges eth 7].
Proof.
  destruct (LogFilter_reads_by_state (init LogFilter 7 [[e1; e2]]) eq_refl
              (consistent_init LogFilter 7 [[e1; e2]])) as [_ Hidle].
  destruct (Hidle ltac:(discriminate)) as [(s' & evs & Hrun & _ & Ht & Hre) _].
  by exists s', evs.
Defined.

(** X10: a stopped LogFilter can still be read. After [stop_watching] has
    released the filter, [get_new_entries] does not raise: it fetches the
    changes of the released filter and returns what passes the hooks. *)
Theorem reads_go_on_after_stop s timeout :
  is_LogFilter (cls (self s)) = true ->
  let s1 := snd (stop_watching timeout s) in
  exists s2 evs,
    get_new_entries s1 = (Ok (read_result (self s) (hd [] (remote s))), s2)
    /\ trace s2 = trace s ++ evs
    /\ List.filter is_remote evs
       = [UninstallFilter eth (filter_id (self s));
          GetFilterChanges eth (filter_id (self s))].
Proof.
  destruct s as [o r t]; cbn [self remote trace]. intros Hk. cbv zeta.
  rewrite stop_watching_run. cbn [snd].
  destruct (LogFilter_reads (set_stopped true (set_running false o)) r
              (t ++ [Warn "stop_watching";
                     UninstallFilter (poll_namespace (cls o)) (filter_id o);
                     Join timeout]) Hk) as [_ Hidle].
  destruct (Hidle eq_refl) as [-> _].
  eexists _, _. split; [reflexivity|]. simpl.
  split; [by rewrite <- app_assoc|].
  simpl. rewrite read_events_no_remote.
  by destruct (cls o).
Qed.

Lemma reads_go_on_after_stop_witness :
  exists s2,
    get_new_entries (snd (stop_watching 0 (init LogFilter 7 [[e1]])))
    = (Ok [e1], s2).
Proof.
  destruct (reads_go_on_after_stop (init LogFilter 7 [[e1]]) 0 eq_refl)
    as (s2 & evs & Hrun & _).
  by exists s2.
Defined.

(** X11: the deprecated [get] of a LogFilter (or PastLogFilter) warns and
    then, on a filter that is not running, is [get_new_entries] or
    [get_all_entries] according to [only_changes]; on a running filter it
    raises [ValueError] after the warning, before any fetch. *)
Theorem get_warns_then_reads o r t only_changes :
  is_LogFilter (cls o) = true ->
  (is_running o = false ->
   LogFilter_get only_changes (mkState o r t)
   = (if only_changes then get_new_entries else get_all_entries)
       (mkState o r (t ++ [Warn "get"])))
  /\ (is_running o = true ->
      exists msg,
        LogFilter_get only_changes (mkState o r t)
        = (Raise (ValueError msg), mkState o r (t ++ [Warn "get"]))).
Proof.
  intros Hk.
  unfold LogFilter_get, _ensure_not_running, LogFilter_ensure_not_running.
  run. rewrite Hk. simpl. split; intros Hr; rewrite Hr; [done|by eexists].
Qed.

Lemma get_warns_then_reads_witness :
  LogFilter_get true (init LogFilter 7 [[e1]])
  = get_new_entries (mkState (new_object LogFilter 7) [[e1]] [Warn "get"]).
Proof.
  exact (proj1 (get_warns_then_reads (new_object LogFilter 7) [[e1]] [] true
                  eq_refl) eq_refl).
Defined.

(** *** Dispatch *)

Lemma calls_of_pass o batch :
  calls_of (pass_events o batch) = expected_calls o batch.
Proof.
  unfold pass_events.
  change (GetFilterChanges ?ns ?f :: ?l) with ([GetFilterChanges ns f] ++ l).
  rewrite !calls_of_app, calls_of_dispatch.
  unfold sleep_event. destruct (poll_interval o); simpl; by rewrite app_nil_r.
Qed.

(** X12: with the hooks of the base class (every class but LogFilter and
    PastLogFilter), and on a LogFilter that has neither matcher nor
    formatter, a pass of the loop hands every fetched entry, unchanged, to
    every registered callback. *)
Theorem default_hooks_call_everything s :
  is_running (self s) = true ->
  is_LogFilter (cls (self s)) = false
  \/ (data_filter_set_regex (self s) = None
      /\ log_entry_formatter (self s) = None) ->
  exists s' evs,
    loop_pass s = (Ok true, s')
    /\ trace s' = trace s ++ evs
    /\ calls_of evs
       = flat_map (fun entry => map (fun cb => (cb, entry)) (callbacks (self s)))
                  (hd [] (remote s)).
Proof.
  destruct s as [o r t]; simpl. intros Hrun Hhooks.
  rewrite (loop_pass_run _ _ _ Hrun).
  eexists _, _. split; [reflexivity|]. split; [reflexivity|].
  fold (pass_events o (hd [] r)). rewrite calls_of_pass.
  unfold expected_calls. apply flat_map_ext; intros e.
  unfold is_valid_entry_value, format_entry_value, LogFilter_is_valid_entry,
    LogFilter_format_entry, Filter_is_valid_entry, Filter_format_entry.
  destruct Hhooks as [->|[-> ->]]; [done|].
  by destruct (is_LogFilter (cls o)).
Qed.

Lemma default_hooks_call_everything_witness :
  exists s' evs,
    loop_pass live_sample = (Ok true, s')
    /\ trace s' = trace live_sample ++ evs
    /\ calls_of evs = [(c1, e1); (c2, e1); (c1, e2); (c2, e2)].
Proof.
  destruct (default_hooks_call_everything live_sample eq_refl
              (or_introl eq_refl)) as (s' & evs & Hrun & Htrace & Hcalls).
  by exists s', evs.
Defined.

Lemma length_expected_calls o batch :
  length (expected_calls o batch)
  = (length (List.filter (is_valid_entry_value o) batch)
     * length (callbacks o))%nat.
Proof.
  unfold expected_calls. induction batch as [|e es IH]; [done|].
  cbn [flat_map List.filter]. rewrite length_app, IH.
  destruct (is_valid_entry_value o e); simpl; [|done].
  by rewrite length_map.
Qed.

(** X13: an entry that fails the validity hook reaches no callback. Every
    call a pass makes is a call of a registered callback with the formatted
    form of a fetched entry that passed the hook, and there are as many
    calls as pairs of such an entry and a callback. *)
Theorem rejected_entries_reach_no_callback s :
  is_running (self s) = true ->
  exists s' evs,
    loop_pass s = (Ok true, s')
    /\ trace s' = trace s ++ evs
    /\ (forall cb arg,
          In (cb, arg) (calls_of evs) ->
          In cb (callbacks (self s))
          /\ exists entry,
              In entry (hd [] (remote s))
              /\ is_valid_entry_value (self s) entry = true
              /\ arg = format_entry_value (self s) entry)
    /\ length (calls_of evs)
       = (length (List.filter (is_valid_entry_value (self s)) (hd [] (remote s)))
          * length (callbacks (self s)))%nat.
Proof.
  destruct s as [o r t]; simpl. intros Hrun.
  rewrite (loop_pass_run _ _ _ Hrun).
  eexists _, _. split; [reflexivity|]. split; [reflexivity|].
  fold (pass_events o (hd [] r)). rewrite calls_of_pass.
  split; [|apply length_expected_calls].
  intros cb arg Hin. unfold expected_calls in Hin.
  apply in_flat_map in Hin as (e & He & Hin).
  destruct (is_valid_entry_value o e) eqn:Hv; [|done].
  apply in_map_iff in Hin as (cb' & [= <- <-] & Hcb).
  split; [done|]. by exists e.
Qed.

Lemma rejected_entries_reach_no_callback_witness :
  exists s' evs,
    loop_pass live_sample = (Ok true, s')
    /\ trace s' = trace live_sample ++ evs
    /\ length (calls_of evs) = 4%nat.
Proof.
  destruct (rejected_entries_reach_no_callback live_sample eq_refl)
    as (s' & evs & Hrun & Htrace & _ & Hlen).
  by exists s', evs.
Defined.

(** *** What no operation changes *)

Lemma effect_keeps a o :
  (exists added, callbacks (effect a o) = callbacks o ++ added)
  /\ cls (effect a o) = cls o
  /\ filter_id (effect a o) = filter_id o
  /\ poll_interval (effect a o) = poll_interval o
  /\ log_entry_formatter (effect a o) = log_entry_formatter o.
Proof.
  assert (Hid : forall o' : object,
             callbacks o' = callbacks o -> exists added,
               callbacks o' = callbacks o ++ added).
  { intros o' ->. exists []. by rewrite app_nil_r. }
  destruct a; simpl; try (split; [by apply Hid|done]).
  - destruct (stopped o); [split; [by apply Hid|done]|].
    split; [by exists cbs|done].
  - destruct (any_tuple _); [|split; [by apply Hid|done]].
    destruct (construct_data_filter_regex _); split; by try apply Hid.
  - destruct (stopped o); split; by try apply Hid.
Qed.

(** X14: the registry only grows. Along every sequence of operations and
    loop steps the callbacks registered before are still registered, in the
    same order and in front of the later ones; the class, the filter id,
    the poll interval and the formatter never change. *)
Theorem registry_only_grows s s' :
  rtc step s s' ->
  (exists added, callbacks (self s') = callbacks (self s) ++ added)
  /\ cls (self s') = cls (self s)
  /\ filter_id (self s') = filter_id (self s)
  /\ poll_interval (self s') = poll_interval (self s)
  /\ log_entry_formatter (self s') = log_entry_formatter (self s).
Proof.
  induction 1 as [s|s s1 s' Hstep _ IH].
  - split; [|done]. exists []. by rewrite app_nil_r.
  - destruct Hstep as [a m s0 Hm].
    rewrite (exec_effect _ _ _ s0 Hm) in IH.
    destruct (effect_keeps a (self s0)) as ([add1 H1] & H2 & H3 & H4 & H5).
    destruct IH as ([add2 I1] & I2 & I3 & I4 & I5).
    split; [|repeat split; congruence].
    exists (add1 ++ add2). by rewrite I1, H1, <- app_assoc.
Qed.

Lemma registry_only_grows_witness :
  let s := init LogFilter 7 [[e1]] in
  let s' := run_actions [a_watch [c1]; a_stop_watching 0] s in
  exists added, callbacks (self s') = callbacks (self s) ++ added.
Proof.
  intros s s'.
  assert (H1 : step s (run_actions [a_watch [c1]] s))
    by exact (step_exec (a_watch [c1]) _ s eq_refl).
  assert (H2 : step (run_actions [a_watch [c1]] s) s')
    by exact (step_exec (a_stop_watching 0) _ (run_actions [a_watch [c1]] s)
                        eq_refl).
  exact (proj1 (registry_only_grows s s'
                  (rtc_l _ _ _ _ H1 (rtc_once _ _ H2)))).
Defined.

(** X15: the two flags never disagree. In every state a filter can reach
    from its construction a stopped filter is not running, so that the
    filter is Running exactly when its [running] attribute is true and
    Stopped exactly when its [stopped] attribute is. *)
Theorem flags_agree_when_reachable k fid replies s :
  rtc step (init k fid replies) s ->
  consistent (self s)
  /\ (state_of (self s) = Running <-> is_running (self s) = true)
  /\ (state_of (self s) = Stopped <-> stopped (self s) = true).
Proof.
  intros Hrtc.
  assert (Hc : consistent (self s)).
  { revert s Hrtc. apply (rtc_ind_r (fun s => consistent (self s))).
    - apply consistent_init.
    - intros s1 s2 _ Hstep IH. by apply (consistent_step s1). }
  split; [exact Hc|].
  unfold state_of, consistent in *.
  destruct (stopped (self s)), (is_running (self s)); intuition congruence.
Qed.

(** A watched LogFilter whose task has entered its loop. *)
Lemma flags_agree_when_reachable_witness :
  let s := run_actions [a_watch [c1]; a_run_enter] (init LogFilter 7 [[e1]]) in
  state_of (self s) = Running <-> is_running (self s) = true.
Proof.
  intros s.
  assert (H1 : step (init LogFilter 7 [[e1]])
                    (run_actions [a_watch [c1]] (init LogFilter 7 [[e1]])))
    by exact (step_exec (a_watch [c1]) _ (init LogFilter 7 [[e1]]) eq_refl).
  assert (H2 : step (run_actions [a_watch [c1]] (init LogFilter 7 [[e1]])) s)
    by exact (step_exec a_run_enter _
                (run_actions [a_watch [c1]] (init LogFilter 7 [[e1]])) eq_refl).
  exact (proj1 (proj2 (flags_agree_when_reachable LogFilter 7 [[e1]] s
                         (rtc_l _ _ _ _ H1 (rtc_once _ _ H2))))).
Defined.

(** *** PastLogFilter after its run *)

(** X16: a PastLogFilter that is not stopped can be used again after its
    run: the run returns, [get_all_entries] then returns instead of raising,
    and a further [watch] asks for the task to be started once more. *)
Theorem past_run_allows_reads_and_rewatch s :
  cls (self s) = PastLogFilter ->
  stopped (self s) = false ->
  exists s1,
    PastLogFilter_run s = (Ok tt, s1)
    /\ (exists s2,
          get_all_entries s1
          = (Ok (read_result (self s) (hd [] (remote s1))), s2))
    /\ (forall cbs, exists s3,
            watch cbs s1 = (Ok tt, s3)
            /\ trace s3 = trace s1 ++ [Warn "watch"; Start; Sleep 0]).
Proof.
  destruct s as [o r t]; cbn [self remote trace]. intros Hk Hs.
  unfold PastLogFilter_run, past_finish, mbind, M_bind, bind.
  rewrite (run_enter_fresh _ _ _ Hs), past_replay_run.
  unfold update. cbn [self remote trace].
  eexists. split; [reflexivity|]. cbn [self remote trace]. split.
  - assert (Hlog : is_LogFilter
                     (cls (set_running false (set_running true o))) = true)
      by (simpl; by rewrite Hk).
    destruct (LogFilter_reads _ (tail r)
                (t ++ GetFilterLogs eth (filter_id (set_running true o))
                   :: dispatch_events (set_running true o) (hd [] r)) Hlog)
      as [_ Hidle].
    destruct (Hidle eq_refl) as [_ ->]. by eexists.
  - intros cbs. unfold watch, _warn_async_deprecated, start, sleep. run.
    rewrite Hs. simpl. eexists. split; [reflexivity|]. simpl.
    by rewrite <- !app_assoc.
Qed.

Lemma past_run_allows_reads_and_rewatch_witness :
  exists s1 s2 out,
    PastLogFilter_run past_sample = (Ok tt, s1)
    /\ get_all_entries s1 = (Ok out, s2).
Proof.
  destruct (past_run_allows_reads_and_rewatch past_sample eq_refl eq_refl)
    as (s1 & Hrun & [s2 Hread] & _).
  by exists s1, s2, (read_result (self past_sample) (hd [] (remote s1))).
Defined.

End EngineMore.

(* ===================================================================== *)
(** ** More on the data matcher *)
(* ===================================================================== *)

Module MatcherMore.
Import Engine Claims EngineFacts MatcherFacts EngineMore.

Local Abbreviation chars := list_ascii_of_string.

(** *** Helpers *)

Lemma strip_tuple_spec t p rest :
  strip_tuple t p = Some rest
  <-> exists segs,
      Forall2 slot_denotes t segs /\ p = chars "0x" ++ concat segs ++ rest.
Proof.
  unfold strip_tuple. split.
  - destruct (strip_literal (chars "0x") p) as [p1|] eqn:H0; [|done].
    apply strip_literal_spec in H0 as ->.
    intros (segs & Hf & ->)%strip_slots_spec. by exists segs.
  - intros (segs & Hf & ->).
    assert (H0 : strip_literal (chars "0x") (chars "0x" ++ concat segs ++ rest)
                 = Some (concat segs ++ rest)) by by apply strip_literal_spec.
    rewrite H0. apply strip_slots_spec. by exists segs.
Qed.

Lemma chars_inj a b : chars a = chars b -> a = b.
Proof.
  intros H. rewrite <- (string_of_list_ascii_of_string a),
              <- (string_of_list_ascii_of_string b). by f_equal.
Qed.

(** A payload that is let through starts with a match of some tuple. *)
Lemma pattern_accepts_strip data_filter_set p :
  pattern_accepts data_filter_set p = true ->
  exists t rest, In t data_filter_set /\ strip_tuple t p = Some rest.
Proof.
  induction data_filter_set as [|t ts IH]; [done|].
  destruct ts as [|t' ts].
  - cbn [pattern_accepts]. destruct (strip_tuple t p) as [rest|] eqn:Ht; [|done].
    intros _. exists t, rest. split; [by left|done].
  - change (pattern_accepts (t :: t' :: ts) p)
      with (match strip_tuple t p with
            | Some _ => true
            | None => pattern_accepts (t' :: ts) p
            end).
    destruct (strip_tuple t p) as [rest|] eqn:Ht.
    + intros _. exists t, rest. split; [by left|done].
    + intros (t0 & rest & Hin & H0)%IH. exists t0, rest. split; [by right|done].
Qed.

(** *** What the matcher lets through *)

(** X17: the matcher never turns away a payload that some tuple matches
    fully. On every set with plain slots and a non-empty tuple
    [set_data_filters] returns, and afterwards [is_valid_entry] holds of
    every payload that is ["0x"] followed by one segment per slot of some
    tuple of the set. *)
Theorem matcher_never_rejects_full_match data_filter_set o r t :
  plain_set data_filter_set = true ->
  any_tuple data_filter_set = true ->
  is_LogFilter (cls o) = true ->
  exists o',
    set_data_filters data_filter_set (mkState o r t) = (Ok tt, mkState o' r t)
    /\ forall tp payload,
        In tp data_filter_set -> tuple_denotes tp payload ->
        is_valid_entry_value o' (entry_of payload) = true.
Proof.
  intros Hp Hany Hk.
  destruct (LogFilter_accepts data_filter_set o r t Hp Hany Hk)
    as (o' & Hrun & Hacc).
  exists o'. split; [exact Hrun|]. intros tp payload Hin Hd.
  rewrite Hacc. apply spec_accepts_pattern_accepts.
  apply spec_accepts_denotes. by exists tp.
Qed.

(** X18: whatever the matcher lets through starts with ["0x"] and a full
    match of some tuple of the set: a payload that does not begin with a
    match of any tuple is turned away. *)
Theorem accepted_payload_begins_with_match data_filter_set o r t :
  plain_set data_filter_set = true ->
  any_tuple data_filter_set = true ->
  is_LogFilter (cls o) = true ->
  exists o',
    set_data_filters data_filter_set (mkState o r t) = (Ok tt, mkState o' r t)
    /\ forall payload,
        is_valid_entry_value o' (entry_of payload) = true ->
        exists tp front rest,
          In tp data_filter_set
          /\ tuple_denotes tp front
          /\ payload = front +:+ rest.
Proof.
  intros Hp Hany Hk.
  destruct (LogFilter_accepts data_filter_set o r t Hp Hany Hk)
    as (o' & Hrun & Hacc).
  exists o'. split; [exact Hrun|]. intros payload Hv.
  rewrite Hacc in Hv.
  apply pattern_accepts_strip in Hv as (tp & rest & Hin & Hs).
  apply strip_tuple_spec in Hs as (segs & Hf & Hpay).
  exists tp, (string_of_list_ascii (chars "0x" ++ concat segs)),
    (string_of_list_ascii rest).
  split; [done|]. split.
  - exists segs. split; [done|]. by rewrite list_ascii_of_string_of_list_ascii.
  - apply chars_inj.
    rewrite chars_append, !list_ascii_of_string_of_list_ascii, Hpay.
    by rewrite <- app_assoc.
Qed.

(** X19: with a single tuple the matcher is exact up to one newline: it
    lets a payload through if and only if the tuple matches the payload
    fully, or matches all of it but a newline at its end. *)
Theorem single_tuple_matcher_exact tp o r t :
  tp <> [] ->
  forallb plain_slot tp = true ->
  is_LogFilter (cls o) = true ->
  exists o',
    set_data_filters [tp] (mkState o r t) = (Ok tt, mkState o' r t)
    /\ forall payload,
        is_valid_entry_value o' (entry_of payload) = true
        <-> tuple_denotes tp payload
            \/ exists front,
                tuple_denotes tp front
                /\ payload = front +:+ String (ascii_of_nat 10) "".
Proof.
  intros Hne Hp Hk.
  assert (Hps : plain_set [tp] = true) by (simpl; by rewrite Hp).
  assert (Hany : any_tuple [tp] = true) by by destruct tp.
  destruct (LogFilter_accepts [tp] o r t Hps Hany Hk) as (o' & Hrun & Hacc).
  exists o'. split; [exact Hrun|]. intros payload.
  rewrite Hacc, single_tuple_accepts, tuple_matches_denotes.
  split; (intros [Hfull|Hnl]; [by left|right]).
  - apply strip_tuple_spec in Hnl as (segs & Hf & Hpay).
    exists (string_of_list_ascii (chars "0x" ++ concat segs)). split.
    + exists segs. split; [done|]. by rewrite list_ascii_of_string_of_list_ascii.
    + apply chars_inj.
      rewrite chars_append, list_ascii_of_string_of_list_ascii, Hpay.
      by rewrite <- app_assoc.
  - destruct Hnl as (front & (segs & Hf & Hfront) & ->).
    apply strip_tuple_spec. exists segs. split; [done|].
    rewrite chars_append, Hfront. by rewrite <- app_assoc.
Qed.

(** *** set_data_filters again, and construction *)

Lemma set_data_filters_all_empty data_filter_set o r t :
  all_empty data_filter_set = true ->
  set_data_filters data_filter_set (mkState o r t)
  = (Ok tt, mkState (set_data_filter_set data_filter_set o) r t).
Proof.
  intros He. unfold set_data_filters. run.
  by rewrite any_tuple_all_empty, He.
Qed.

(** X20: a matcher is never taken away again. When a set with a non-empty
    tuple has been installed and [set_data_filters] is then given a set of
    empty tuples, or the empty set, the new set is recorded but the matcher
    compiled from the first set stays in force. *)
Theorem empty_set_keeps_old_matcher d1 d2 o r t :
  plain_set d1 = true ->
  any_tuple d1 = true ->
  all_empty d2 = true ->
  exists o1 o2,
    set_data_filters d1 (mkState o r t) = (Ok tt, mkState o1 r t)
    /\ set_data_filters d2 (mkState o1 r t) = (Ok tt, mkState o2 r t)
    /\ data_filter_set o2 = Some d2
    /\ data_filter_set_regex o2 = Some (pattern_branches d1)
    /\ is_valid_entry_value o2 = is_valid_entry_value o1.
Proof.
  intros Hp Hany He.
  destruct (set_data_filters_run d1 o r t Hp) as (o1 & Hrun & _ & Hre).
  rewrite Hany in Hre.
  exists o1, (set_data_filter_set d2 o1).
  split; [exact Hrun|]. split; [by apply set_data_filters_all_empty|].
  by repeat split.
Qed.

Lemma empty_set_keeps_old_matcher_witness :
  exists o1 o2,
    set_data_filters [[Some ("0x" +:+ word "aa")]]
      (init LogFilter 7 []) = (Ok tt, mkState o1 [] [])
    /\ set_data_filters [] (mkState o1 [] []) = (Ok tt, mkState o2 [] [])
    /\ is_valid_entry_value o2 e2 = false.
Proof.
  destruct (empty_set_keeps_old_matcher [[Some ("0x" +:+ word "aa")]] []
              (new_object LogFilter 7) [] [] eq_refl eq_refl eq_refl)
    as (o1 & o2 & H1 & H2 & _ & _ & Hv).
  exists o1, o2. split; [exact H1|]. split; [exact H2|].
  rewrite Hv. vm_compute in H1. injection H1 as <-. vm_compute. reflexivity.
Defined.

(** X21: the constructor of LogFilter, given a filter id, an optional
    formatter and an optional data filter set with plain slots, returns an
    Idle filter with that id, that formatter and an empty registry; the
    filter has no matcher exactly when no set was given or every tuple of
    the set is empty. *)
Theorem LogFilter_init_result k fid formatter dfs r t :
  is_LogFilter k = true ->
  (forall d, dfs = Some d -> plain_set d = true) ->
  exists o,
    LogFilter_init fid formatter dfs (mkState (class_attributes k) r t)
    = (Ok tt, mkState o r t)
    /\ cls o = k /\ filter_id o = fid /\ callbacks o = []
    /\ state_of o = Idle
    /\ log_entry_formatter o = formatter
    /\ (data_filter_set_regex o = None
        <-> dfs = None \/ exists d, dfs = Some d /\ all_empty d = true).
Proof.
  intros Hk Hp. unfold LogFilter_init, Filter_init.
  destruct dfs as [d|].
  - destruct (set_data_filters_run d
                (set_log_entry_formatter formatter (class_attributes k)) r t
                (Hp d eq_refl)) as (o' & Hrun & Hcls & Hre).
    pose proof (exec_effect k (a_set_data_filters d) (set_data_filters d)
                  (mkState (set_log_entry_formatter formatter
                              (class_attributes k)) r t)) as He.
    simpl in He. rewrite Hk in He. specialize (He eq_refl).
    rewrite Hrun in He. simpl in He.
    destruct (effect_keeps (a_set_data_filters d)
                (set_log_entry_formatter formatter (class_attributes k)))
      as (_ & _ & _ & _ & Hfmt).
    pose proof (effect_flags (a_set_data_filters d)
                  (set_log_entry_formatter formatter (class_attributes k)))
      as Hfl.
    cbn [effect] in Hfmt, Hfl. rewrite <- He in Hfmt, Hfl.
    injection Hfl as Hst Hr.
    run. rewrite Hrun. simpl.
    exists (set_identity fid o'). split; [reflexivity|].
    unfold state_of, is_running in *. simpl in *.
    rewrite Hst, Hr. repeat split; try done.
    + rewrite Hre, any_tuple_all_empty. intros Hnone. right. exists d.
      split; [done|]. by destruct (all_empty d).
    + intros [|(d' & [= <-] & Hd')]; [done|].
      by rewrite Hre, any_tuple_all_empty, Hd'.
  - run. eexists. split; [reflexivity|]. simpl. repeat split; try done.
    intros _. by left.
Qed.

Lemma LogFilter_init_result_witness :
  exists o,
    LogFilter_init 7 None (Some [[None]])
      (mkState (class_attributes LogFilter) [] [])
    = (Ok tt, mkState o [] [])
    /\ state_of o = Idle
    /\ is_valid_entry_value o e1 = true.
Proof.
  assert (Hp : forall d, Some [[None]] = Some d -> plain_set d = true)
    by (by intros d [= <-]).
  destruct (LogFilter_init_result LogFilter 7 None (Some [[None]]) [] []
              eq_refl Hp) as (o & Hrun & _ & _ & _ & Hst & _).
  exists o. split; [exact Hrun|]. split; [exact Hst|].
  vm_compute in Hrun. injection Hrun as <-. vm_compute. reflexivity.
Defined.

(** A wildcard slot followed by the word [aa..]. *)
Lemma matcher_never_rejects_full_match_witness :
  exists o',
    set_data_filters [[None; Some ("0x" +:+ word "aa")]] (init LogFilter 7 [])
    = (Ok tt, mkState o' [] [])
    /\ is_valid_entry_value o'
         (entry_of ("0x" +:+ word "0b" +:+ word "aa")) = true.
Proof.
  destruct (matcher_never_rejects_full_match
              [[None; Some ("0x" +:+ word "aa")]] (new_object LogFilter 7)
              [] [] eq_refl eq_refl eq_refl) as (o' & Hrun & Hacc).
  exists o'. split; [exact Hrun|].
  apply (Hacc [None; Some ("0x" +:+ word "aa")]); [by left|].
  apply tuple_matches_denotes. vm_compute. reflexivity.
Defined.

Lemma accepted_payload_begins_with_match_witness :
  exists o',
    set_data_filters [[None; Some ("0x" +:+ word "aa")]] (init LogFilter 7 [])
    = (Ok tt, mkState o' [] [])
    /\ forall payload,
        is_valid_entry_value o' (entry_of payload) = true ->
        exists tp front rest,
          In tp [[None; Some ("0x" +:+ word "aa")]]
          /\ tuple_denotes tp front
          /\ payload = front +:+ rest.
Proof.
  exact (accepted_payload_begins_with_match
           [[None; Some ("0x" +:+ word "aa")]] (new_object LogFilter 7)
           [] [] eq_refl eq_refl eq_refl).
Defined.

Lemma single_tuple_matcher_exact_witness :
  exists o',
    set_data_filters [[None]] (init LogFilter 7 []) = (Ok tt, mkState o' [] [])
    /\ is_valid_entry_value o' (entry_of ("0x" +:+ word "0b")) = true.
Proof.
  destruct (single_tuple_matcher_exact [None] (new_object LogFilter 7) [] []
              ltac:(discriminate) eq_refl eq_refl) as (o' & Hrun & Hiff).
  exists o'. split; [exact Hrun|].
  apply Hiff. left. apply tuple_matches_denotes. vm_compute. reflexivity.
Defined.

End MatcherMore.
